(** * not-synchronous: queue, emitter, scheduler and bounded runners

    A shallow embedding of [src/_internals/stack.ts], the event emitter,
    [src/deferred.ts], [src/event-loop.ts] and [src/concurrently.ts],
    followed by the properties established about them.

    Conventions.  JavaScript numbers that the code uses as counters, indexes
    and millisecond durations are integers ([Z]); arrays are lists; a method
    that may throw is a computation in the state-and-exception monad [M];
    the host's microtask queue, timers and immediates are explicit queues. *)

From Stdlib Require Import ZArith Lia Bool.
From stdpp Require Import base option list strings gmap pretty.

Local Open Scope Z_scope.

(** ** JavaScript values *)

Module Js.

(** The values that flow through the modelled code as job payloads, results,
    rejection reasons and exceptions. *)
Inductive value : Type :=
| VUndefined
| VNull
| VBool (b : bool)
| VNumber (n : Z)
| VString (s : string)
| VSymbol (description : string)
| VFunction (src : string)
| VError (name message : string)          (* instanceof Error *)
| VPlainObject (message : value)          (* object literal; [message] is what [o.message] reads *)
| VObject (repr : string).                (* any other object (array, Date, class instance); [repr] is String(o) *)

Inductive jstype := TUndefined | TObject | TBoolean | TNumber | TString | TSymbol | TFunction.

Definition typeof (v : value) : jstype :=
  match v with
  | VUndefined => TUndefined
  | VNull => TObject
  | VBool _ => TBoolean
  | VNumber _ => TNumber
  | VString _ => TString
  | VSymbol _ => TSymbol
  | VFunction _ => TFunction
  | VError _ _ | VPlainObject _ | VObject _ => TObject
  end.

Definition jstype_eqb (a b : jstype) : bool :=
  match a, b with
  | TUndefined, TUndefined | TObject, TObject | TBoolean, TBoolean
  | TNumber, TNumber | TString, TString | TSymbol, TSymbol
  | TFunction, TFunction => true
  | _, _ => false
  end.


(** The result of running a piece of code: it returns or it throws. *)
Inductive completion (A : Type) : Type :=
| Normal (a : A)
| Throw (e : value).
Arguments Normal {A} a.
Arguments Throw {A} e.

(** Truthiness and [===] of the element types stored in a [Stack]. *)
Class Item (T : Type) := {
  truthy : T -> bool;
  strictEq : T -> T -> bool
}.

#[export] Instance Item_number : Item Z := {|
  truthy n := negb (n =? 0);
  strictEq := Z.eqb
|}.

End Js.
Export Js.

(** ** State and exceptions *)

(** A method with receiver state [S]: it returns or throws, and in both
    cases leaves a (possibly mutated) state behind. *)
Definition M (S A : Type) : Type := S -> completion A * S.

#[export] Instance M_ret {S} : MRet (M S) := fun A a s => (Normal a, s).
#[export] Instance M_bind {S} : MBind (M S) := fun A B k m s =>
  match m s with
  | (Normal a, s') => k a s'
  | (Throw e, s') => (Throw e, s')
  end.
Definition throw {S A} (e : value) : M S A := fun s => (Throw e, s).
Definition get {S} : M S S := fun s => (Normal s, s).
Definition put {S} (s : S) : M S unit := fun _ => (Normal tt, s).
Definition modify {S} (f : S -> S) : M S unit := fun s => (Normal tt, f s).
(** [try { m } catch (e) { h e }] *)
Definition try_catch {S A} (m : M S A) (h : value -> M S A) : M S A :=
  fun s => match m s with
           | (Normal a, s') => (Normal a, s')
           | (Throw e, s') => h e s'
           end.

(** ** Arrays *)

Module Array.

Section Arrays.
Context {T : Type}.

(** [Array.prototype.splice(start, 1)]: the removed elements and the array
    that is left.  A negative [start] counts from the end. *)
Definition splice1 (start : Z) (l : list T) : list T * list T :=
  let len := Z.of_nat (length l) in
  let actualStart := if start <? 0 then Z.max (len + start) 0 else Z.min start len in
  let k := Z.to_nat actualStart in
  (take 1 (drop k l), take k l ++ drop (S k) l).

(** [Array.prototype.findIndex]: [-1] when no element satisfies [p]. *)
Fixpoint findIndex_from (p : T -> bool) (l : list T) (i : Z) : Z :=
  match l with
  | [] => -1
  | x :: l' => if p x then i else findIndex_from p l' (i + 1)
  end.
Definition findIndex (p : T -> bool) (l : list T) : Z := findIndex_from p l 0.

(** [Array.prototype.indexOf], comparing with [===]. *)
Definition indexOf `{Item T} (x : T) (l : list T) : Z :=
  findIndex (fun y => strictEq y x) l.
End Arrays.

End Array.

(** ** [_internals/stack.ts] *)

Module Stack.

Inductive Order := FIFO | LIFO.

(** [enum Order { FIFO, LIFO }] *)
Definition Order_value (o : Order) : Z :=
  match o with FIFO => 0 | LIFO => 1 end.

(** [StackOrder | number] *)
Inductive OrderInit :=
| OrderName (s : string)
| OrderNumber (n : Z).

Record StackInit := { init_order : option OrderInit }.

Record Stack (T : Type) := { order : Order; items : list T }.
Arguments order {T} _.
Arguments items {T} _.

Section Methods.
Context {T : Type} `{Item T}.

Definition new (props : option StackInit) : Stack T :=
  let props := default {| init_order := None |} props in
  {| items := [];
     order :=
       match init_order props with
       | None => LIFO
       | Some (OrderNumber n) =>
           if n =? 0 then LIFO                                   (* !props.order *)
           else if n =? Order_value FIFO then FIFO else LIFO
       | Some (OrderName s) =>
           if String.eqb s EmptyString then LIFO                          (* !props.order *)
           else if String.eqb s "fifo" then FIFO else LIFO
       end |}.

Definition push (new_items : list T) (s : Stack T) : Stack T :=
  {| order := order s;
     items := match order s with
              | FIFO => items s ++ new_items          (* Array.push *)
              | LIFO => new_items ++ items s          (* Array.unshift *)
              end |}.

Definition peek (s : Stack T) : option T := last (items s).

Definition pop (s : Stack T) : option T * Stack T :=
  if 0 <? Z.of_nat (length (items s)) then
    let '(removed, rest) :=
      Array.splice1 (match order s with
               | FIFO => 0
               | LIFO => Z.of_nat (length (items s)) - 1
               end) (items s) in
    match head removed with
    | Some item =>
        if truthy item then
          let index := Array.indexOf item rest in
          (Some item, {| order := order s; items := snd (Array.splice1 index rest) |})
        else (Some item, {| order := order s; items := rest |})
    | None => (None, {| order := order s; items := rest |})
    end
  else (None, s).

Definition size (s : Stack T) : Z := Z.of_nat (length (items s)).
Definition isEmpty (s : Stack T) : bool := Z.of_nat (length (items s)) =? 0.
Definition clear (s : Stack T) : Stack T := {| order := order s; items := [] |}.
Definition findIndex (p : T -> bool) (s : Stack T) : Z := Array.findIndex p (items s).
Definition toArray (s : Stack T) : list T := items s.

(** The loop of [enumerate]: [items.push([index++, item])] for each item,
    [index] starting from the given value. *)
Fixpoint enumerate_from (index : Z) (l : list T) : list (Z * T) :=
  match l with
  | [] => []
  | item :: l' => (index, item) :: enumerate_from (index + 1) l'
  end.
Definition enumerate (s : Stack T) : list (Z * T) := enumerate_from 0 (items s).

(** [this.#items.splice(index, 1)[0]]: the item removed, if any, and the
    stack that is left. *)
Definition deleteByIndex (index : Z) (s : Stack T) : option T * Stack T :=
  let '(removed, rest) := Array.splice1 index (items s) in
  (head removed, {| order := order s; items := rest |}).

(** [this.#items[index]] for an integer [index]: an array has no element
    at a negative index. *)
Definition getByIndex (index : Z) (s : Stack T) : option T :=
  if index <? 0 then None else items s !! Z.to_nat index.
End Methods.

End Stack.

(** ** The event emitter ([_internals/events]) *)

(** [Hash.sha256] is defined in [_internals/crypto], outside the files
    embedded here; the emitter only compares its outputs for equality, so it
    is modelled for any such function. *)
Class Hash := sha256 : string -> string.

Module Events.

(** A listener is a JavaScript function: its source text (what
    [listener.toString()] returns) and what a call does.  Listeners here do
    not call back into the emitter that invokes them. *)
Record Listener := {
  toString : string;
  call : list value -> completion value
}.

Record EventSubscribeOptions := { opt_once : option bool }.

(** [ListenerSubscription].  The [unsubscribe] closure of the source closes
    over the array [previousListeners] and over [listenerSignature]; the
    record keeps the reference to that array. *)
Record ListenerSubscription := {
  listener : Listener;
  thisArgs : value;
  listenerSignature : string;
  subscriptionId : nat;
  once : bool;
  calls : Z;
  isDisposed : bool;
  eventName : string;
  previousListeners : nat
}.

Definition set_calls (n : Z) (x : ListenerSubscription) : ListenerSubscription :=
  {| listener := listener x; thisArgs := thisArgs x;
     listenerSignature := listenerSignature x; subscriptionId := subscriptionId x;
     once := once x; calls := n; isDisposed := isDisposed x;
     eventName := eventName x; previousListeners := previousListeners x |}.

Definition set_isDisposed (b : bool) (x : ListenerSubscription) : ListenerSubscription :=
  {| listener := listener x; thisArgs := thisArgs x;
     listenerSignature := listenerSignature x; subscriptionId := subscriptionId x;
     once := once x; calls := calls x; isDisposed := b;
     eventName := eventName x; previousListeners := previousListeners x |}.

(** The emitter.  [_listeners] maps an event name to (a reference to) its
    array of subscriptions and [arrays] holds the array objects, so that a
    closure keeps acting on the array it captured.  [uuids] is the supply
    behind [uuid()].  [delivered] and [reported] are observation logs: the
    listener calls made, as (subscription id, arguments), and the errors
    handed to the listener-error handler. *)
Record EventEmitter := {
  _size : Z;
  _disposed : bool;
  _listeners : gmap string nat;
  arrays : list (list ListenerSubscription);
  uuids : nat;
  delivered : list (nat * list value);
  reported : list value
}.

Definition new : EventEmitter :=
  {| _size := 0; _disposed := false; _listeners := ∅; arrays := [];
     uuids := 0; delivered := []; reported := [] |}.

Definition set_arrays (a : list (list ListenerSubscription)) (e : EventEmitter) :=
  {| _size := _size e; _disposed := _disposed e; _listeners := _listeners e;
     arrays := a; uuids := uuids e; delivered := delivered e; reported := reported e |}.
Definition set_size (n : Z) (e : EventEmitter) :=
  {| _size := n; _disposed := _disposed e; _listeners := _listeners e;
     arrays := arrays e; uuids := uuids e; delivered := delivered e; reported := reported e |}.
Definition set_listeners (m : gmap string nat) (e : EventEmitter) :=
  {| _size := _size e; _disposed := _disposed e; _listeners := m;
     arrays := arrays e; uuids := uuids e; delivered := delivered e; reported := reported e |}.
Definition set_disposed (b : bool) (e : EventEmitter) :=
  {| _size := _size e; _disposed := b; _listeners := _listeners e;
     arrays := arrays e; uuids := uuids e; delivered := delivered e; reported := reported e |}.
Definition set_uuids (n : nat) (e : EventEmitter) :=
  {| _size := _size e; _disposed := _disposed e; _listeners := _listeners e;
     arrays := arrays e; uuids := n; delivered := delivered e; reported := reported e |}.
Definition log_delivered (d : nat * list value) (e : EventEmitter) :=
  {| _size := _size e; _disposed := _disposed e; _listeners := _listeners e;
     arrays := arrays e; uuids := uuids e; delivered := delivered e ++ [d];
     reported := reported e |}.
Definition log_reported (err : value) (e : EventEmitter) :=
  {| _size := _size e; _disposed := _disposed e; _listeners := _listeners e;
     arrays := arrays e; uuids := uuids e; delivered := delivered e;
     reported := reported e ++ [err] |}.

Definition array (r : nat) (e : EventEmitter) : list ListenerSubscription :=
  default [] (arrays e !! r).

Definition disposed_error : value := VError "Exception" "EventEmitter has been disposed".

(** The [unsubscribe] closure created by [subscribe]. *)
Definition unsubscribe (previousListeners : nat) (listenerSignature' : string)
    (e : EventEmitter) : EventEmitter :=
  let arr := array previousListeners e in
  let index := Array.findIndex (fun item => String.eqb (listenerSignature item) listenerSignature') arr in
  if -1 <? index then
    set_size (_size e - 1)
      (set_arrays (<[previousListeners := snd (Array.splice1 index arr)]> (arrays e)) e)
  else e.

(** The [dispose] closure created by [subscribe]. *)
Definition dispose_subscription (previousListeners : nat) (listenerSignature' : string)
    (e : EventEmitter) : EventEmitter :=
  let arr := array previousListeners e in
  let index := Array.findIndex (fun item => String.eqb (listenerSignature item) listenerSignature') arr in
  if index <? 0 then e
  else match arr !! Z.to_nat index with
       | None => e
       | Some self =>
           let self := set_isDisposed true self in
           set_arrays (<[previousListeners := snd (Array.splice1 index arr) ++ [self]]> (arrays e)) e
       end.

(** What [subscribe] returns: [{ dispose, unsubscribe }], two closures over
    the same array and signature. *)
Record Handle := { handle_array : nat; handle_signature : string }.

Definition handle_unsubscribe (h : Handle) : EventEmitter -> EventEmitter :=
  unsubscribe (handle_array h) (handle_signature h).
Definition handle_dispose (h : Handle) : EventEmitter -> EventEmitter :=
  dispose_subscription (handle_array h) (handle_signature h).

Section Methods.
Context `{Hash}.

Definition subscribe (event : string) (listener' : Listener) (thisArgs' : value)
    (options : option EventSubscribeOptions) : M EventEmitter Handle :=
  fun e =>
    if _disposed e then (Throw disposed_error, e)
    else
      (* if(!this._listeners.has(event)) this._listeners.set(event, []) *)
      let e := match _listeners e !! event with
               | Some _ => e
               | None => set_listeners (<[event := length (arrays e)]> (_listeners e))
                           (set_arrays (arrays e ++ [[]]) e)
               end in
      let previousListeners' := default 0%nat (_listeners e !! event) in
      let listenerSignature' := sha256 (toString listener') in
      let self := {| calls := 0; eventName := event; isDisposed := false;
                     listener := listener'; listenerSignature := listenerSignature';
                     once := match options ≫= opt_once with Some b => b | None => false end;
                     subscriptionId := uuids e;
                     thisArgs := thisArgs';
                     previousListeners := previousListeners' |} in
      let e := set_uuids (S (uuids e)) e in
      let e := set_arrays (<[previousListeners' := array previousListeners' e ++ [self]]> (arrays e)) e in
      let e := set_size (_size e + 1) e in
      (Normal {| handle_array := previousListeners'; handle_signature := listenerSignature' |}, e).
End Methods.

(** The body of [for(const subscription of listeners)] in [emit], from
    iterator position [i] on.  The array iterator reads [listeners[i]] from
    the array as it is at that moment and stops once [i] is past its end.
    Every round advances [i] and none lengthens the array, so the number of
    rounds is bounded by the length at entry, which [emit] passes as [fuel]. *)
Fixpoint emit_loop (fuel : nat) (listeners : nat) (args : list value) (i : nat)
    (results : list value) (e : EventEmitter) : list value * EventEmitter :=
  match fuel with
  | O => (results, e)
  | S fuel =>
      match array listeners e !! i with
      | None => (results, e)
      | Some subscription =>
          if isDisposed subscription then
            emit_loop fuel listeners args (S i) results e
          else if once subscription && (0 <? calls subscription) then
            emit_loop fuel listeners args (S i) results
              (unsubscribe (previousListeners subscription) (listenerSignature subscription) e)
          else
            (* both branches of if(subscription.thisArgs) call the listener
               on args; they differ in the receiver only *)
            let e := log_delivered (subscriptionId subscription, args) e in
            let '(results, e) :=
              match call (listener subscription) args with
              | Normal v => (results ++ [v], e)
              | Throw err => (results, log_reported err e)        (* errorHandler(err) *)
              end in
            (* subscription.calls++ : the object sits at position i *)
            let subscription := set_calls (calls subscription + 1) subscription in
            let e := set_arrays (<[listeners := <[i := subscription]> (array listeners e)]> (arrays e)) e in
            let index := Array.findIndex (fun item => Nat.eqb (subscriptionId item) (subscriptionId subscription))
                           (array listeners e) in
            let e := if -1 <? index then
                       set_arrays (<[listeners := snd (Array.splice1 index (array listeners e)) ++ [subscription]]>
                                     (arrays e)) e
                     else e in
            emit_loop fuel listeners args (S i) results e
      end
  end.

Definition emit (event : string) (args : list value) : M EventEmitter (option (list value)) :=
  fun e =>
    if _disposed e then (Throw disposed_error, e)
    else match _listeners e !! event with
         | None => (Normal None, e)
         | Some listeners =>
             let '(results, e) :=
               emit_loop (length (array listeners e)) listeners args 0 [] e in
             (Normal (Some results), e)
         end.

Definition removeListeners : M EventEmitter unit :=
  fun e =>
    if _disposed e then (Throw disposed_error, e)
    else (Normal tt, set_size 0 (set_listeners ∅ e)).

Definition hasListeners (e : EventEmitter) : bool := 0 <? _size e.

Definition dispose : M EventEmitter unit :=
  fun e =>
    if _disposed e then (Normal tt, e)
    else (Normal tt, set_disposed true (set_size 0 (set_listeners ∅ e))).

Section Queries.
Context `{Hash}.

Definition getSubscription (event : string) (listener' : Listener) :
    M EventEmitter (option ListenerSubscription) :=
  fun e =>
    if _disposed e then (Throw disposed_error, e)
    else match _listeners e !! event with
         | None => (Normal None, e)
         | Some listeners =>
             let listenerSignature' := sha256 (toString listener') in
             (Normal (List.find (fun subscription =>
                        String.eqb (listenerSignature subscription) listenerSignature')
                        (array listeners e)), e)
         end.

(** [getListeners] returns the array itself; its items are given here. *)
Definition getListeners (event : string) : M EventEmitter (list ListenerSubscription) :=
  fun e =>
    if _disposed e then (Throw disposed_error, e)
    else (Normal (match _listeners e !! event with
                  | Some listeners => array listeners e
                  | None => []
                  end), e).

(** [removeListener(event, listener?)]; [None] is a call without
    [listener]. *)
Definition removeListener (event : string) (listener' : option Listener) :
    M EventEmitter unit :=
  fun e =>
    if _disposed e then (Throw disposed_error, e)
    else match _listeners e !! event with
         | None => (Normal tt, e)
         | Some listeners =>
             match listener' with
             | None => (Normal tt, set_listeners (delete event (_listeners e)) e)
             | Some listener' =>
                 let listenerSignature' := sha256 (toString listener') in
                 match List.find (fun subscription =>
                         String.eqb (listenerSignature subscription) listenerSignature')
                         (array listeners e) with
                 | Some subscription =>
                     (* subscription.unsubscribe(); this._size--; break *)
                     let e := unsubscribe (previousListeners subscription)
                                (listenerSignature subscription) e in
                     (Normal tt, set_size (_size e - 1) e)
                 | None => (Normal tt, e)
                 end
             end
         end.
End Queries.

(** [[...this._listeners.values()].flat()]: the subscriptions of every
    event, in the insertion order of the map.  [subscribe] gives a new key
    the next free array reference, so insertion order is the order of the
    references. *)
Definition values (e : EventEmitter) : list nat :=
  filter (fun r => r ∈ (snd <$> map_to_list (_listeners e))) (seq 0 (length (arrays e))).
Definition flat (e : EventEmitter) : list ListenerSubscription :=
  concat ((fun r => array r e) <$> values e).

(** [subscription.calls++] in [fire]: the subscription object is shared
    between the copy that [fire] iterates and the array it was taken from;
    this is the effect on the arrays of the emitter. *)
Definition bump_calls (id : nat) (e : EventEmitter) : EventEmitter :=
  set_arrays
    (map (map (fun item => if Nat.eqb (subscriptionId item) id
                           then set_calls (calls item + 1) item else item))
       (arrays e)) e.

(** The body of [for(const subscription of listeners)] in [fire], from
    iterator position [i] on; [listeners] is the flattened copy, local to
    the call.  As in [emit], a round advances [i] and does not lengthen
    [listeners].  [log_reported] stands for
    [this._options?.onListenerError?.(err)]. *)
Fixpoint fire_loop (fuel : nat) (data : value) (i : nat)
    (listeners : list ListenerSubscription) (e : EventEmitter) : EventEmitter :=
  match fuel with
  | O => e
  | S fuel =>
      match listeners !! i with
      | None => e
      | Some subscription =>
          if isDisposed subscription then fire_loop fuel data (S i) listeners e
          else if once subscription && (0 <? calls subscription) then
            fire_loop fuel data (S i) listeners
              (unsubscribe (previousListeners subscription) (listenerSignature subscription) e)
          else
            let e := log_delivered (subscriptionId subscription, [data]) e in
            let e := match call (listener subscription) [data] with
                     | Normal _ => e
                     | Throw err => log_reported err e
                     end in
            let e := bump_calls (subscriptionId subscription) e in
            let subscription := set_calls (calls subscription + 1) subscription in
            let listeners := <[i := subscription]> listeners in
            let index := Array.findIndex (fun item => Nat.eqb (subscriptionId item) (subscriptionId subscription))
                           listeners in
            let listeners := if -1 <? index then
                               snd (Array.splice1 index listeners) ++ [subscription]
                             else listeners in
            fire_loop fuel data (S i) listeners e
      end
  end.

Definition fire `{Hash} (event : string) (data : value) : M EventEmitter unit :=
  fun e =>
    if _disposed e then (Throw disposed_error, e)
    else
      let listeners := flat e in
      let e := fire_loop (length listeners) data 0 listeners e in
      removeListener event None e.

(** The calls a client can make on an emitter and on the handles that
    [subscribe] gave it, and the emitter after a sequence of such calls,
    each of which returns or throws. *)
Inductive Op :=
| OpSubscribe (event : string) (listener' : Listener) (thisArgs' : value)
    (options : option EventSubscribeOptions)
| OpEmit (event : string) (args : list value)
| OpFire (event : string) (data : value)
| OpGetSubscription (event : string) (listener' : Listener)
| OpGetListeners (event : string)
| OpRemoveListeners
| OpRemoveListener (event : string) (listener' : option Listener)
| OpHasListeners
| OpDispose
| OpHandleUnsubscribe (h : Handle)
| OpHandleDispose (h : Handle).

(** Whether the call threw, and with what. *)
Definition thrown {A} (c : completion A) : option value :=
  match c with Normal _ => None | Throw err => Some err end.

Definition op `{Hash} (o : Op) (e : EventEmitter) : option value * EventEmitter :=
  match o with
  | OpSubscribe event listener' thisArgs' options =>
      let '(c, e) := subscribe event listener' thisArgs' options e in (thrown c, e)
  | OpEmit event args => let '(c, e) := emit event args e in (thrown c, e)
  | OpFire event data => let '(c, e) := fire event data e in (thrown c, e)
  | OpGetSubscription event listener' =>
      let '(c, e) := getSubscription event listener' e in (thrown c, e)
  | OpGetListeners event => let '(c, e) := getListeners event e in (thrown c, e)
  | OpRemoveListeners => let '(c, e) := removeListeners e in (thrown c, e)
  | OpRemoveListener event listener' =>
      let '(c, e) := removeListener event listener' e in (thrown c, e)
  | OpHasListeners => (None, e)
  | OpDispose => let '(c, e) := dispose e in (thrown c, e)
  | OpHandleUnsubscribe h => (None, handle_unsubscribe h e)
  | OpHandleDispose h => (None, handle_dispose h e)
  end.

Definition ops `{Hash} (os : list Op) (e : EventEmitter) : EventEmitter :=
  foldl (fun e o => snd (op o e)) e os.

End Events.

(** ** [deferred.ts] *)

Module Deferred.

Inductive PromiseState (T : Type) :=
| Pending
| Fulfilled (v : T)
| Rejected (reason : value).
Arguments Pending {T}.
Arguments Fulfilled {T} v.
Arguments Rejected {T} reason.

Inductive DeferredOutcome (T : Type) :=
| Resolved (v : T)
| RejectedWith (reason : value).
Arguments Resolved {T} v.
Arguments RejectedWith {T} reason.

(** [promise] is the state of the native promise, which settles at most
    once; [_outcome] is the field of the same name; [settlements] counts the
    calls of [resolve] and [reject]. *)
Record Deferred (T : Type) := {
  promise : PromiseState T;
  _outcome : option (DeferredOutcome T);
  settlements : nat
}.
Arguments promise {T} _.
Arguments _outcome {T} _.
Arguments settlements {T} _.

Definition new {T} : Deferred T :=
  {| promise := Pending; _outcome := None; settlements := 0 |}.

(** The [resolve]/[reject] functions of a native promise act only on a
    pending promise. *)
Definition settle {T} (to : PromiseState T) (p : PromiseState T) : PromiseState T :=
  match p with Pending => to | _ => p end.

Definition resolve {T} (v : T) (d : Deferred T) : Deferred T :=
  {| promise := settle (Fulfilled v) (promise d);
     _outcome := Some (Resolved v);
     settlements := S (settlements d) |}.

Definition reject {T} (reason : value) (d : Deferred T) : Deferred T :=
  {| promise := settle (Rejected reason) (promise d);
     _outcome := Some (RejectedWith reason);
     settlements := S (settlements d) |}.

Definition isResolved {T} (d : Deferred T) : bool :=
  match _outcome d with Some (Resolved _) => true | _ => false end.
Definition isRejected {T} (d : Deferred T) : bool :=
  match _outcome d with Some (RejectedWith _) => true | _ => false end.

(** The getter [value]; [None] is [undefined]. *)
Definition get_value {T} (d : Deferred T) : option T :=
  match _outcome d with Some (Resolved v) => Some v | _ => None end.

(** [CanceledError] is defined in [_internals/errors], outside the files
    embedded here: [CanceledError reason] is the object that
    [new CanceledError(reason)] gives. *)
Class Errors := CanceledError : option string -> value.

Definition cancel `{Errors} {T} (reason : option string) (d : Deferred T) : Deferred T :=
  reject (CanceledError reason) d.

(** What a holder of the deferred can do to it, and a sequence of such
    calls made one after the other. *)
Inductive Call (T : Type) :=
| CallResolve (v : T)
| CallReject (reason : value)
| CallCancel (reason : option string).
Arguments CallResolve {T} v.
Arguments CallReject {T} reason.
Arguments CallCancel {T} reason.

Definition call `{Errors} {T} (c : Call T) : Deferred T -> Deferred T :=
  match c with
  | CallResolve v => resolve v
  | CallReject reason => reject reason
  | CallCancel reason => cancel reason
  end.

Definition calls `{Errors} {T} (cs : list (Call T)) (d : Deferred T) : Deferred T :=
  foldl (fun d c => call c d) d cs.

End Deferred.

(** ** [event-loop.ts] *)

(** [isPlainObject] is defined in [_internals/utils], outside the files
    embedded here; the scheduler is modelled for any such predicate. *)
Class Utils := isPlainObject : value -> bool.

Module EventLoop.
Import Events Deferred.

Record EventLoopOptions := { concurrency : option Z }.

Record JobOptions := { timeout : option Z; delay : option Z }.

(** [jobId] comes from [shortId()], which yields a fresh identifier at each
    call; identifiers are numbered here in the order they are drawn. *)
Record Job := {
  data : value;
  jobId : nat;
  queuedAt : Z;
  messageType : option string;
  options : JobOptions
}.

(** Jobs are objects: always truthy, and [===] is identity.  [add] creates
    one object per identifier, so identity is equality of [jobId]. *)
#[export] Instance Item_Job : Item Job := {|
  truthy _ := true;
  strictEq a b := Nat.eqb (jobId a) (jobId b)
|}.

(** A processing function returns a promise, described here by how that
    promise ends: fulfilled or rejected some milliseconds after the call, or
    never.  The abort signal is advisory: whatever the function does on abort
    comes after the race is decided and is not observed by the scheduler. *)
Inductive Settlement :=
| Fulfils (after : Z) (result : value)
| Rejects (after : Z) (reason : value)
| NeverSettles.

Definition ProcessFn := Job -> Settlement.

(** Callbacks handed to the host: to [EventLoop.schedule] (microtasks) and to
    [setTimeout]; [ProcessorSettled] stands for the reactions attached to the
    promise of the processing function. *)
Inductive Task :=
| Execute                                     (* () => this.#execute() *)
| ProcessJob (job : Job)                      (* processJob *)
| ScheduleProcessJob (job : Job)              (* () => EventLoop.schedule(processJob) *)
| TimeoutElapsed (job : Job)                  (* the timer raced against the processor *)
| ProcessorSettled (job : Job) (outcome : completion value).

(** What an observer of the scheduler sees. *)
Inductive Observation :=
| Processing                                  (* emit('processing', ...) returned *)
| Invoked (job : Job)                         (* the processing function was called on [job] *)
| Aborted (job : Job) (reason : value)        (* ac.abort(reason) *)
| Completed (job : Job) (result : value)      (* emit('completed', {...job, result}) returned *)
| Failed (job : Job) (error : value)          (* emit('failed', {...job, error}) returned *)
| Unhandled (reason : value).                 (* a promise chain ended rejected with no handler *)

(** The private members of the class. *)
Record EventLoop := {
  _eventLoopQueueStack : Stack.Stack Job;
  _eventLoopQueueProcessor : option ProcessFn;
  _ee : EventEmitter;
  _options : EventLoopOptions;
  _stopPromise : option nat;
  _executing : list Job
}.

(** The host around it: the microtask queue, the timers ordered by due time,
    the clock, the [Deferred] objects by reference, the identifiers of the
    jobs whose [Promise.race] has settled, the supply behind [shortId()] and
    the observations made so far. *)
Record Host := {
  microtasks : list Task;
  timers : list (Z * Task);
  now : Z;
  deferreds : list (Deferred value);
  raced : list nat;
  jobIds : nat;
  observed : list Observation
}.

Record World := { self : EventLoop; host : Host }.

Definition on_self (f : EventLoop -> EventLoop) (w : World) : World :=
  {| self := f (self w); host := host w |}.
Definition on_host (f : Host -> Host) (w : World) : World :=
  {| self := self w; host := f (host w) |}.

Definition set_stack (x : Stack.Stack Job) (w : World) : World :=
  on_self (fun l => {| _eventLoopQueueStack := x;
    _eventLoopQueueProcessor := _eventLoopQueueProcessor l; _ee := _ee l;
    _options := _options l; _stopPromise := _stopPromise l; _executing := _executing l |}) w.
Definition set_processor (x : option ProcessFn) (w : World) : World :=
  on_self (fun l => {| _eventLoopQueueStack := _eventLoopQueueStack l;
    _eventLoopQueueProcessor := x; _ee := _ee l;
    _options := _options l; _stopPromise := _stopPromise l; _executing := _executing l |}) w.
Definition set_ee (x : EventEmitter) (w : World) : World :=
  on_self (fun l => {| _eventLoopQueueStack := _eventLoopQueueStack l;
    _eventLoopQueueProcessor := _eventLoopQueueProcessor l; _ee := x;
    _options := _options l; _stopPromise := _stopPromise l; _executing := _executing l |}) w.
Definition set_stopPromise (x : option nat) (w : World) : World :=
  on_self (fun l => {| _eventLoopQueueStack := _eventLoopQueueStack l;
    _eventLoopQueueProcessor := _eventLoopQueueProcessor l; _ee := _ee l;
    _options := _options l; _stopPromise := x; _executing := _executing l |}) w.
Definition set_executing (x : list Job) (w : World) : World :=
  on_self (fun l => {| _eventLoopQueueStack := _eventLoopQueueStack l;
    _eventLoopQueueProcessor := _eventLoopQueueProcessor l; _ee := _ee l;
    _options := _options l; _stopPromise := _stopPromise l; _executing := x |}) w.

Definition set_microtasks (x : list Task) (w : World) : World :=
  on_host (fun h => {| microtasks := x; timers := timers h; now := now h;
    deferreds := deferreds h; raced := raced h; jobIds := jobIds h; observed := observed h |}) w.
Definition set_timers (x : list (Z * Task)) (w : World) : World :=
  on_host (fun h => {| microtasks := microtasks h; timers := x; now := now h;
    deferreds := deferreds h; raced := raced h; jobIds := jobIds h; observed := observed h |}) w.
Definition set_now (x : Z) (w : World) : World :=
  on_host (fun h => {| microtasks := microtasks h; timers := timers h; now := x;
    deferreds := deferreds h; raced := raced h; jobIds := jobIds h; observed := observed h |}) w.
Definition set_deferreds (x : list (Deferred value)) (w : World) : World :=
  on_host (fun h => {| microtasks := microtasks h; timers := timers h; now := now h;
    deferreds := x; raced := raced h; jobIds := jobIds h; observed := observed h |}) w.
Definition set_raced (x : list nat) (w : World) : World :=
  on_host (fun h => {| microtasks := microtasks h; timers := timers h; now := now h;
    deferreds := deferreds h; raced := x; jobIds := jobIds h; observed := observed h |}) w.
Definition set_jobIds (x : nat) (w : World) : World :=
  on_host (fun h => {| microtasks := microtasks h; timers := timers h; now := now h;
    deferreds := deferreds h; raced := raced h; jobIds := x; observed := observed h |}) w.
Definition observe (o : Observation) (w : World) : World :=
  on_host (fun h => {| microtasks := microtasks h; timers := timers h; now := now h;
    deferreds := deferreds h; raced := raced h; jobIds := jobIds h;
    observed := observed h ++ [o] |}) w.

(** A call into the emitter from a method of the scheduler. *)
Definition on_ee {A} (m : M EventEmitter A) : M World A :=
  fun w => let '(r, e) := m (_ee (self w)) in (r, set_ee e w).

(** [EventLoop.schedule(callback)]: [queueMicrotask]. *)
Definition schedule (t : Task) (w : World) : World :=
  set_microtasks (microtasks (host w) ++ [t]) w.

(** [setTimeout(callback, ms)]: timers fire by due time, and in the order
    they were set among those due at the same time. *)
Fixpoint insert_timer (due : Z) (t : Task) (l : list (Z * Task)) : list (Z * Task) :=
  match l with
  | [] => [(due, t)]
  | (due', t') :: l' =>
      if due <? due' then (due, t) :: l else (due', t') :: insert_timer due t l'
  end.
Definition setTimeout (t : Task) (ms : Z) (w : World) : World :=
  set_timers (insert_timer (now (host w) + ms) t (timers (host w))) w.

(** [new EventLoop(options)]: the constructor overrides [concurrency] with 1
    and the queue is built with [{ order: Order.FIFO }]. *)
Definition new (options : option EventLoopOptions) : World :=
  {| self := {| _eventLoopQueueStack :=
                  Stack.new (Some {| Stack.init_order := Some (Stack.OrderNumber (Stack.Order_value Stack.FIFO)) |});
                _eventLoopQueueProcessor := None;
                _ee := Events.new;
                _options := {| concurrency := Some 1 |};
                _stopPromise := None;
                _executing := [] |};
     host := {| microtasks := []; timers := []; now := 0; deferreds := [];
                raced := []; jobIds := 0; observed := [] |} |}.

Definition size (w : World) : Z := Stack.size (_eventLoopQueueStack (self w)).

(** The argument of the listeners is an [Event] object. *)
Definition event_object : value := VObject "[object Object]".

Definition already_started : value := VError "Exception" "SyncQueue is already processing".

Definition timeout_error (job : Job) : value :=
  VError "Error" ("Timeout of " +:+ pretty (default 0 (timeout (options job))) +:+ "ms exceeded").

(** [job.options.timeout && job.options.timeout > 0], and the same for
    [delay]. *)
Definition positive (o : option Z) : bool :=
  match o with Some n => negb (n =? 0) && (0 <? n) | None => false end.

(** [String(v)] as [new Error(v)] computes it; a symbol cannot be converted. *)
Definition ToString (v : value) : completion string :=
  match v with
  | VUndefined => Normal "undefined"
  | VNull => Normal "null"
  | VBool b => Normal (if b then "true" else "false")
  | VNumber n => Normal (pretty n)
  | VString s => Normal s
  | VSymbol _ => Throw (VError "TypeError" "Cannot convert a Symbol value to a string")
  | VFunction src => Normal src
  | VError name message => Normal (if String.eqb message EmptyString then name else name +:+ ": " +:+ message)
  | VPlainObject _ => Normal "[object Object]"
  | VObject repr => Normal repr
  end.

(** [new Error(message)] *)
Definition newError (message : value) : completion value :=
  match message with
  | VUndefined => Normal (VError "Error" EmptyString)
  | _ => match ToString message with
         | Normal s => Normal (VError "Error" s)
         | Throw e => Throw e
         end
  end.

(** [err.message] *)
Definition get_message (err : value) : completion value :=
  match err with
  | VNull => Throw (VError "TypeError" "Cannot read properties of null (reading 'message')")
  | VUndefined => Throw (VError "TypeError" "Cannot read properties of undefined (reading 'message')")
  | VError _ message => Normal (VString message)
  | VPlainObject message => Normal message
  | _ => Normal VUndefined
  end.

(** [a ?? b] *)
Definition nullish (a b : value) : value :=
  match a with VUndefined | VNull => b | _ => a end.

Section Methods.
Context `{Hash} `{Utils}.

(** The first statement of both [catch] callbacks of [#execute]. *)
Definition normalize (err : value) : completion value :=
  if negb (jstype_eqb (typeof err) TObject) || isPlainObject err then
    if jstype_eqb (typeof err) TObject then
      match get_message err with
      | Normal m => newError (nullish m err)
      | Throw e => Throw e
      end
    else newError err
  else Normal err.

(** [.then(result => this.#ee.emit('completed', ...))] *)
Definition on_fulfilled (job : Job) (result : value) : M World unit :=
  _ ← on_ee (Events.emit "completed" [event_object]);
  modify (observe (Completed job result)).

(** [.catch(err => { ...; this.#ee.emit('failed', ...) })] *)
Definition on_rejected (job : Job) (err : value) : M World unit :=
  fun w =>
    match normalize err with
    | Throw e => (Throw e, w)
    | Normal err =>
        (_ ← on_ee (Events.emit "failed" [event_object]);
         modify (observe (Failed job err))) w
    end.

(** [.finally(() => { ... this.#executing.splice(index, 1) })] *)
Definition on_finally (job : Job) (w : World) : World :=
  let index := Array.findIndex (fun j => Nat.eqb (jobId j) (jobId job)) (_executing (self w)) in
  if -1 <? index then set_executing (snd (Array.splice1 index (_executing (self w)))) w
  else w.

(** The chain [.then(...).catch(...).finally(...)] once the promise it
    hangs on has settled with [outcome].  An exception thrown by the [then]
    callback reaches the [catch] callback; one thrown by the [catch] callback
    leaves the chain rejected, after [finally] has run. *)
Definition settle_job (job : Job) (outcome : completion value) (w : World) : World :=
  let '(r, w) :=
    try_catch (match outcome with
               | Normal result => on_fulfilled job result
               | Throw err => throw err
               end)
              (on_rejected job) w in
  let w := on_finally job w in
  match r with
  | Normal _ => w
  | Throw e => observe (Unhandled e) w
  end.

(** [this.#eventLoopQueueProcessor(job, signal)]: the call is observed and
    the settlement of the promise it returns is entered in the host's
    timeline. *)
Definition invoke (processor : ProcessFn) (job : Job) (w : World) : World :=
  let w := observe (Invoked job) w in
  match processor job with
  | Fulfils after result => setTimeout (ProcessorSettled job (Normal result)) (Z.max 0 after) w
  | Rejects after reason => setTimeout (ProcessorSettled job (Throw reason)) (Z.max 0 after) w
  | NeverSettles => w
  end.

Definition processJob (job : Job) (w : World) : World :=
  match _eventLoopQueueProcessor (self w) with
  | None => w
  | Some processor =>
      if positive (timeout (options job)) then
        let w := invoke processor job w in
        setTimeout (TimeoutElapsed job) (default 0 (timeout (options job))) w
      else invoke processor job w
  end.

(** The [while] loop of [#execute]; it runs at most [concurrency] rounds
    because it is entered with [#executing] empty. *)
Fixpoint fill_executing (fuel : nat) (w : World) : World :=
  match fuel with
  | O => w
  | S fuel =>
      let limit := match concurrency (_options (self w)) with
                   | Some c => if c =? 0 then 1 else c
                   | None => 1
                   end in
      if Z.of_nat (length (_executing (self w))) <? limit then
        match Stack.pop (_eventLoopQueueStack (self w)) with
        | (Some job, stack) =>
            fill_executing fuel (set_executing (_executing (self w) ++ [job]) (set_stack stack w))
        | (None, stack) => set_stack stack w
        end
      else w
  end.

Definition dispatch (job : Job) (w : World) : World :=
  if positive (delay (options job)) then
    setTimeout (ScheduleProcessJob job) (default 0 (delay (options job))) w
  else schedule (ProcessJob job) w.

Definition execute (w : World) : World :=
  match _eventLoopQueueProcessor (self w) with
  | None => w
  | Some _ =>
      if 0 <? Z.of_nat (length (_executing (self w))) then w
      else if Stack.size (_eventLoopQueueStack (self w)) =? 0 then w
      else
        let limit := match concurrency (_options (self w)) with
                     | Some c => if c =? 0 then 1 else c
                     | None => 1
                     end in
        let w := fill_executing (Z.to_nat limit) w in
        foldl (fun w job => dispatch job w) w (_executing (self w))
  end.

Definition add (context : value) (type : option string) (options' : option JobOptions)
    : M World Z :=
  fun w =>
    let jobId' := jobIds (host w) in
    let w := set_jobIds (S jobId') w in
    let job := {| data := context; jobId := jobId'; queuedAt := now (host w);
                  messageType := type;
                  options := default {| timeout := None; delay := None |} options' |} in
    let w := set_stack (Stack.push [job] (_eventLoopQueueStack (self w))) w in
    let w := schedule Execute w in
    (Normal (Stack.findIndex (fun j => Nat.eqb (jobId j) jobId') (_eventLoopQueueStack (self w))), w).

(** [start] returns the promise of a new [Deferred], here its reference. *)
Definition start (fn : ProcessFn) : M World nat :=
  fun w =>
    match _eventLoopQueueProcessor (self w) with
    | Some _ => (Throw already_started, w)
    | None =>
        let w := set_processor (Some fn) w in
        let w := schedule Execute w in
        (_ ← on_ee (Events.emit "processing" [event_object]);
         _ ← modify (observe Processing);
         w ← get;
         let d := length (deferreds (host w)) in
         _ ← put (set_stopPromise (Some d)
                    (set_deferreds (deferreds (host w) ++ [Deferred.new]) w));
         mret d) w
    end.

Definition removeAllEventListeners : M World unit := on_ee Events.removeListeners.

Definition dispose : M World unit :=
  fun w =>
    let w := set_processor None w in
    let w := set_stack (Stack.clear (_eventLoopQueueStack (self w))) w in
    let w := set_executing [] w in
    let w := match _stopPromise (self w) with
             | Some d =>
                 set_stopPromise None
                   (set_deferreds (alter (Deferred.resolve VUndefined) d (deferreds (host w))) w)
             | None => w
             end in
    (_ ← removeAllEventListeners;
     on_ee Events.dispose) w.

Definition addEventListener (event : string) (listener' : Listener) (thisArgs' : value)
    (options' : option EventSubscribeOptions) : M World Handle :=
  on_ee (Events.subscribe event listener' thisArgs' options').

(** One callback run by the host. *)
Definition run_task (t : Task) (w : World) : World :=
  match t with
  | Execute => execute w
  | ProcessJob job => processJob job w
  | ScheduleProcessJob job => schedule (ProcessJob job) w
  | TimeoutElapsed job =>
      let w := observe (Aborted job (timeout_error job)) w in
      if bool_decide (jobId job ∈ raced (host w)) then w
      else settle_job job (Throw (timeout_error job)) (set_raced (jobId job :: raced (host w)) w)
  | ProcessorSettled job outcome =>
      if positive (timeout (options job)) then
        if bool_decide (jobId job ∈ raced (host w)) then w
        else settle_job job outcome (set_raced (jobId job :: raced (host w)) w)
      else settle_job job outcome w
  end.

(** One turn of the host: the oldest microtask if there is one, else the
    timer that is due first, with the clock moved to its due time. *)
Definition step (w : World) : option World :=
  match microtasks (host w) with
  | t :: rest => Some (run_task t (set_microtasks rest w))
  | [] =>
      match timers (host w) with
      | (due, t) :: rest =>
          Some (run_task t (set_now (Z.max (now (host w)) due) (set_timers rest w)))
      | [] => None
      end
  end.

Fixpoint run (fuel : nat) (w : World) : World :=
  match fuel with
  | O => w
  | S fuel => match step w with
              | Some w' => run fuel w'
              | None => w
              end
  end.

Definition quiescent (w : World) : bool :=
  match microtasks (host w), timers (host w) with
  | [], [] => true
  | _, _ => false
  end.

(** The Processing state: [start(fn)] has returned, and since then the
    scheduler has only been given jobs and listeners and the host has only
    run its callbacks; no [dispose] in between. *)
Inductive processing (fn : ProcessFn) : World -> Prop :=
| processing_start (w w' : World) (d : nat) :
    start fn w = (Normal d, w') -> processing fn w'
| processing_add (w : World) (context : value) (type : option string)
    (options' : option JobOptions) :
    processing fn w -> processing fn (snd (add context type options' w))
| processing_listen (w : World) (event : string) (listener' : Listener)
    (thisArgs' : value) (options' : option EventSubscribeOptions) :
    processing fn w ->
    processing fn (snd (addEventListener event listener' thisArgs' options' w))
| processing_step (w w' : World) :
    processing fn w -> step w = Some w' -> processing fn w'.


(** The jobs the processing function was called on, in call order. *)
Definition dispatched (w : World) : list Job :=
  omap (fun o => match o with Invoked job => Some job | _ => None end) (observed (host w)).

Definition removeEventListener (event : string) (listener' : Listener) : M World unit :=
  on_ee (Events.removeListener event (Some listener')).

Definition removeManyEventListeners (event : string) : M World unit :=
  on_ee (Events.removeListener event None).

(** What can happen to a scheduler: a client calls one of its methods, or
    one of the closures of a handle that [addEventListener] returned, and the
    call returns or throws; or the host takes its next turn.  Listeners and
    processing functions do not call the scheduler themselves. *)
Inductive Action :=
| ActAdd (context : value) (type : option string) (options' : option JobOptions)
| ActStart (fn : ProcessFn)
| ActDispose
| ActAddEventListener (event : string) (listener' : Listener) (thisArgs' : value)
    (options' : option EventSubscribeOptions)
| ActRemoveEventListener (event : string) (listener' : Listener)
| ActRemoveManyEventListeners (event : string)
| ActRemoveAllEventListeners
| ActHandleUnsubscribe (h : Handle)
| ActHandleDispose (h : Handle)
| HostTurn.

Definition act (a : Action) (w : World) : World :=
  match a with
  | ActAdd context type options' => snd (add context type options' w)
  | ActStart fn => snd (start fn w)
  | ActDispose => snd (dispose w)
  | ActAddEventListener event listener' thisArgs' options' =>
      snd (addEventListener event listener' thisArgs' options' w)
  | ActRemoveEventListener event listener' => snd (removeEventListener event listener' w)
  | ActRemoveManyEventListeners event => snd (removeManyEventListeners event w)
  | ActRemoveAllEventListeners => snd (removeAllEventListeners w)
  | ActHandleUnsubscribe h => set_ee (handle_unsubscribe h (_ee (self w))) w
  | ActHandleDispose h => set_ee (handle_dispose h (_ee (self w))) w
  | HostTurn => default w (step w)
  end.

Definition acts (l : list Action) (w : World) : World :=
  foldl (fun w a => act a w) w l.

(** At most one job in flight, under the options and the queue order that
    the constructor sets. *)
Definition single_flight (w : World) : Prop :=
  (length (_executing (self w)) <= 1)%nat /\
  concurrency (_options (self w)) = Some 1 /\
  Stack.order (_eventLoopQueueStack (self w)) = Stack.LIFO.

(** A job is in flight and the host holds nothing that could settle it:
    no timer, and no microtask other than calls of [#execute]. *)
Definition stalled (w : World) : Prop :=
  _executing (self w) <> [] /\
  (forall t, t ∈ microtasks (host w) -> t = Execute) /\
  timers (host w) = [].
End Methods.

End EventLoop.

(** ** [concurrently.ts] *)

Module Concurrently.
Import Deferred.

(** [Result<T>] *)
Inductive Result :=
| fulfilled (value : value)
| rejected (reason : value).

(** A callback is a promise-returning function ([() => Promise<T>]): a call
    returns a promise, described here by how that promise ends.  A failure of
    the work is a rejection of the promise. *)
Inductive Work :=
| Resolves (v : value)
| RejectsWith (reason : value)
| StaysPending.

(** [results[index] = x] on a JavaScript array: writing past the end
    lengthens the array and leaves holes in between. *)
Definition array_set {A} (index : nat) (x : A) (l : list (option A)) : list (option A) :=
  if decide (index < length l)%nat then <[index := Some x]> l
  else l ++ replicate (index - length l) None ++ [Some x].

(** [results[index]]: [None] for a hole and past the end. *)
Definition array_get {A} (index : nat) (l : list (option A)) : option A :=
  mjoin (l !! index).

(** The variables that [next] closes over.  [works] lists, per index, the
    promise that [callbacks[index]()] (or [callback(...args[index])]) returns
    when called.  [inflight] lists the indexes whose promise was obtained and
    has not settled yet, and [immediates] counts the pending
    [EventLoop.immediate(next)] callbacks. *)
Record Runner := {
  works : list Work;
  cursor : Z;
  settled : Z;
  results : list (option Result);
  deferred : Deferred (list (option Result));
  inflight : list nat;
  immediates : nat
}.

Definition init (works' : list Work) : Runner :=
  {| works := works'; cursor := 0; settled := 0; results := [];
     deferred := Deferred.new; inflight := []; immediates := 0 |}.

Definition next (r : Runner) : Runner :=
  if cursor r <? Z.of_nat (length (works r)) then
    let index := Z.to_nat (cursor r) in
    {| works := works r; cursor := cursor r + 1; settled := settled r;
       results := results r; deferred := deferred r;
       inflight := inflight r ++ [index]; immediates := immediates r |}
  else if settled r =? Z.of_nat (length (works r)) then
    {| works := works r; cursor := cursor r; settled := settled r;
       results := results r; deferred := Deferred.resolve (results r) (deferred r);
       inflight := inflight r; immediates := immediates r |}
  else r.

(** The reactions [.then(...).catch(...).then(...)] attached to the promise
    of [index], run once that promise has settled with [entry]. *)
Definition record (index : nat) (entry : Result) (r : Runner) : Runner :=
  {| works := works r; cursor := cursor r; settled := settled r + 1;
     results := array_set index entry (results r); deferred := deferred r;
     inflight := filter (fun i => i ≠ index) (inflight r);
     immediates := S (immediates r) |}.

Definition entry_of (w : Work) : option Result :=
  match w with
  | Resolves v => Some (fulfilled v)
  | RejectsWith reason => Some (rejected reason)
  | StaysPending => None
  end.

(** [while(--concurrency >= 0) next();] *)
Fixpoint launch (fuel : nat) (concurrency : Z) (r : Runner) : Runner :=
  match fuel with
  | O => r
  | S fuel =>
      let concurrency := concurrency - 1 in
      if 0 <=? concurrency then launch fuel concurrency (next r) else r
  end.

(** Both entry points return [deferred.promise] after the loop; the state
    below is the one in which they return. *)
Definition mapPromises {Args} (args : list Args) (callback : Args -> Work)
    (concurrency : Z) : Runner :=
  launch (Z.to_nat concurrency) concurrency (init (map callback args)).

Definition promiseConcurrency (callbacks : list (unit -> Work)) (concurrency : Z) : Runner :=
  launch (Z.to_nat concurrency) concurrency (init (map (fun callback => callback tt) callbacks)).

(** The host takes a pending immediate off its queue (and then calls
    [next]). *)
Definition take_immediate (r : Runner) : Runner :=
  {| works := works r; cursor := cursor r; settled := settled r;
     results := results r; deferred := deferred r;
     inflight := inflight r; immediates := pred (immediates r) |}.

(** What happens after the entry point has returned: a promise in flight
    settles, in any order the callbacks choose, or the host runs a pending
    immediate.  The three reactions on a settled promise are consecutive
    microtasks that touch [results[index]], [settled] and the host's
    immediates only, and [next] runs from an immediate, never between two
    microtasks: the chain is one step. *)
Inductive step : Runner -> Runner -> Prop :=
| step_settle (r : Runner) (index : nat) (w : Work) (entry : Result) :
    index ∈ inflight r ->
    works r !! index = Some w ->
    entry_of w = Some entry ->
    step r (record index entry r)
| step_immediate (r : Runner) :
    (0 < immediates r)%nat ->
    step r (next (take_immediate r)).

Definition reachable (r0 r : Runner) : Prop := rtc step r0 r.

(** The number of callbacks. *)
Definition total (r : Runner) : Z := Z.of_nat (length (works r)).

(** What holds of the closure variables whenever control is outside
    [next], with at most [c] workers alive (in flight or about to be
    resumed by a pending immediate). *)
Record inv (c : Z) (r : Runner) : Prop := {
  inv_cursor : 0 <= cursor r <= total r;
  inv_nodup : NoDup (inflight r);
  inv_claimed : forall i, i ∈ inflight r -> Z.of_nat i < cursor r;
  inv_count : cursor r = settled r + Z.of_nat (length (inflight r));
  inv_slots : Z.of_nat (length (inflight r) + immediates r) <= c;
  inv_length : Z.of_nat (length (results r)) <= cursor r;
  inv_recorded : forall i, Z.of_nat i < cursor r -> i ∉ inflight r ->
    exists w e, works r !! i = Some w /\ entry_of w = Some e /\
                array_get i (results r) = Some e;
  inv_deferred : promise (deferred r) = Pending \/
    (settled r = total r /\ promise (deferred r) = Fulfilled (results r));
  inv_outcome : isRejected (deferred r) = false
}.

(** Some worker is alive or the aggregate promise is resolved. *)
Definition live (r : Runner) : Prop :=
  (exists res, promise (deferred r) = Fulfilled res) \/
  (0 < immediates r)%nat \/ inflight r ≠ [].

(** Twice the number of settlements still to come plus the immediates
    pending: every step of the runner lowers it by one. *)
Definition measure (r : Runner) : Z :=
  2 * (total r - settled r) + Z.of_nat (immediates r).

End Concurrently.

(** ** [events.ts]: the class [Event] *)

Module Event.

(** The callbacks of [EventOptions] are functions [() => void]: a call
    returns or throws.  They do not call the methods of the event they are
    given to. *)
Inductive Callback := Returns | Throws (err : value).

(** The keys of [_callbacks]. *)
Inductive CallbackName := _cancel | _propagate | _propagateEnd | _stopPropagation.

#[export] Instance CallbackName_eq_dec : EqDecision CallbackName.
Proof. solve_decision. Defined.

Record EventOptions := {
  opt_cancelable : option bool;
  onCancel : option Callback;
  onPropagate : option Callback;
  onPropagationStopped : option Callback;
  onDefaultPrevented : option Callback
}.

(** [called] is an observation log: the callbacks called, in order. *)
Record Event := {
  type : string;
  target : value;
  timestamp : Z;
  cancelable : bool;
  _isCancelled : bool;
  _isDefaultPrevented : bool;
  _isDelivered : bool;
  _callbacks : CallbackName -> option Callback;
  called : list CallbackName
}.

Definition set_isCancelled (b : bool) (ev : Event) : Event :=
  {| type := type ev; target := target ev; timestamp := timestamp ev;
     cancelable := cancelable ev; _isCancelled := b;
     _isDefaultPrevented := _isDefaultPrevented ev; _isDelivered := _isDelivered ev;
     _callbacks := _callbacks ev; called := called ev |}.
Definition set_isDefaultPrevented (b : bool) (ev : Event) : Event :=
  {| type := type ev; target := target ev; timestamp := timestamp ev;
     cancelable := cancelable ev; _isCancelled := _isCancelled ev;
     _isDefaultPrevented := b; _isDelivered := _isDelivered ev;
     _callbacks := _callbacks ev; called := called ev |}.
Definition set_isDelivered (b : bool) (ev : Event) : Event :=
  {| type := type ev; target := target ev; timestamp := timestamp ev;
     cancelable := cancelable ev; _isCancelled := _isCancelled ev;
     _isDefaultPrevented := _isDefaultPrevented ev; _isDelivered := b;
     _callbacks := _callbacks ev; called := called ev |}.
Definition log_called (name : CallbackName) (ev : Event) : Event :=
  {| type := type ev; target := target ev; timestamp := timestamp ev;
     cancelable := cancelable ev; _isCancelled := _isCancelled ev;
     _isDefaultPrevented := _isDefaultPrevented ev; _isDelivered := _isDelivered ev;
     _callbacks := _callbacks ev; called := called ev ++ [name] |}.

(** The constructor; [now] is what [Date.now()] returns. *)
Definition new (type' : string) (data : value) (options : option EventOptions)
    (now : Z) : Event :=
  {| type := type'; target := data; timestamp := now;
     cancelable := default false (options ≫= opt_cancelable);  (* options?.cancelable || false *)
     _isCancelled := false; _isDefaultPrevented := false; _isDelivered := false;
     _callbacks := fun name =>
       match name with
       | _cancel => options ≫= onCancel
       | _propagate => options ≫= onPropagate
       | _propagateEnd => options ≫= onDefaultPrevented
       | _stopPropagation => options ≫= onPropagationStopped
       end;
     called := [] |}.

Definition isDefaultPrevented (ev : Event) : bool := _isDefaultPrevented ev.
Definition isCancelled (ev : Event) : bool := _isCancelled ev.
Definition isDelivered (ev : Event) : bool := _isDelivered ev.

(** [this._callbacks.name?.()] *)
Definition optional_call (name : CallbackName) : M Event unit :=
  fun ev =>
    match _callbacks ev name with
    | None => (Normal tt, ev)
    | Some Returns => (Normal tt, log_called name ev)
    | Some (Throws err) => (Throw err, log_called name ev)
    end.

Definition preventDefault : M Event unit :=
  fun ev =>
    if _isDefaultPrevented ev then (Normal tt, ev)
    else (_ ← optional_call _propagateEnd; modify (set_isDefaultPrevented true)) ev.

Definition stopPropagation : M Event unit :=
  fun ev =>
    if negb (_isDelivered ev) then (Normal tt, ev)
    else (_ ← optional_call _stopPropagation; modify (set_isDelivered true)) ev.

Definition cancel : M Event unit :=
  fun ev =>
    if negb (cancelable ev) then (Normal tt, ev)
    else (_ ← optional_call _cancel; modify (set_isCancelled true)) ev.

(** The methods a holder of the event can call, and the event after a
    sequence of such calls, each of which returns or throws. *)
Inductive Method := PreventDefault | StopPropagation | Cancel.

#[export] Instance Method_eq_dec : EqDecision Method.
Proof. solve_decision. Defined.

Definition method (m : Method) : M Event unit :=
  match m with
  | PreventDefault => preventDefault
  | StopPropagation => stopPropagation
  | Cancel => cancel
  end.

Definition methods (ms : list Method) (ev : Event) : Event :=
  foldl (fun ev m => snd (method m ev)) ev ms.

Definition times (name : CallbackName) (ev : Event) : nat :=
  length (filter (fun n => n = name) (called ev)).

(** 1 when the options gave a callback under this key, 0 otherwise. *)
Definition registered (name : CallbackName) (ev : Event) : nat :=
  match _callbacks ev name with Some _ => 1 | None => 0 end.

End Event.

(** ** [iterable.ts] *)

Module Iterable.

(** [new TypeError(`[${typeof callback}] Expected \`callback\` as a function`)] *)
Definition expected_callback (type : string) : value :=
  VError "TypeError" ("[" +:+ type +:+ "] Expected `callback` as a function").

(** [!!limit && limit > 0 && runCount >= limit]; [None] is [undefined].
    Limits are whole numbers here. *)
Definition reached (limit : option Z) (runCount : Z) : bool :=
  match limit with
  | Some n => negb (n =? 0) && (0 <? n) && (n <=? runCount)
  | None => false
  end.

Section Functions.
Context {S Cb : Type}.

(** The second argument: a number or a function. *)
Inductive LimitOrCallback :=
| ALimit (limit : Z)
| ACallback (cb : Cb).

(** The first statements of the four functions: [limit] and [cb] from the
    two overloads.  [None] for [callback] is a call without it. *)
Definition overload (limitOrCallback : LimitOrCallback) (callback : option Cb) :
    completion (option Z * Cb) :=
  match limitOrCallback with
  | ALimit limit =>
      match callback with
      | Some cb => Normal (Some limit, cb)
      | None => Throw (expected_callback "undefined")
      end
  | ACallback cb => Normal (None, cb)
  end.
End Functions.

Section Arrays.
Context {S T : Type}.

(** A callback [(value, index) => void], with its effect on a state. *)
Definition Callback : Type := T -> Z -> M S unit.

(** The [for] loop of [forEachArray] over a JavaScript array, from index
    [i] on. *)
Fixpoint forEachArray_loop (limit : option Z) (cb : Callback) (thing : list T)
    (i runCount : Z) : M S unit :=
  match thing with
  | [] => mret tt
  | item :: rest =>
      _ ← cb item i;
      let runCount := runCount + 1 in
      if reached limit runCount then mret tt
      else forEachArray_loop limit cb rest (i + 1) runCount
  end.

Definition forEachArray (thing : list T) (limitOrCallback : LimitOrCallback)
    (callback : option Callback) : M S unit :=
  fun s =>
    match overload limitOrCallback callback with
    | Throw e => (Throw e, s)
    | Normal (limit, cb) =>
        if reached limit 0 then (Normal tt, s)
        else forEachArray_loop limit cb thing 0 0 s
    end.

(** The same with [try { cb(thing[i], i) } catch {}]. *)
Fixpoint forEachArraySafe_loop (limit : option Z) (cb : Callback) (thing : list T)
    (i runCount : Z) : M S unit :=
  match thing with
  | [] => mret tt
  | item :: rest =>
      _ ← try_catch (cb item i) (fun _ => mret tt);
      let runCount := runCount + 1 in
      if reached limit runCount then mret tt
      else forEachArraySafe_loop limit cb rest (i + 1) runCount
  end.

Definition forEachArraySafe (thing : list T) (limitOrCallback : LimitOrCallback)
    (callback : option Callback) : M S unit :=
  fun s =>
    match overload limitOrCallback callback with
    | Throw e => (Throw e, s)
    | Normal (limit, cb) =>
        if reached limit 0 then (Normal tt, s)
        else forEachArraySafe_loop limit cb thing 0 0 s
    end.

(** A callback [(key, value, index) => void]. *)
Definition EntryCallback : Type := string -> T -> Z -> M S unit.

(** [forEachObject]; [thing] is given by [Object.entries(thing)]. *)
Fixpoint forEachObject_loop (limit : option Z) (cb : EntryCallback)
    (entries : list (string * T)) (i runCount : Z) : M S unit :=
  match entries with
  | [] => mret tt
  | (key, value) :: rest =>
      _ ← cb key value i;
      let runCount := runCount + 1 in
      if reached limit runCount then mret tt
      else forEachObject_loop limit cb rest (i + 1) runCount
  end.

Definition forEachObject (entries : list (string * T)) (limitOrCallback : LimitOrCallback)
    (callback : option EntryCallback) : M S unit :=
  fun s =>
    match overload limitOrCallback callback with
    | Throw e => (Throw e, s)
    | Normal (limit, cb) =>
        if reached limit 0 then (Normal tt, s)
        else forEachObject_loop limit cb entries 0 0 s
    end.

Fixpoint forEachObjectSafe_loop (limit : option Z) (cb : EntryCallback)
    (entries : list (string * T)) (i runCount : Z) : M S unit :=
  match entries with
  | [] => mret tt
  | (key, value) :: rest =>
      _ ← try_catch (cb key value i) (fun _ => mret tt);
      let runCount := runCount + 1 in
      if reached limit runCount then mret tt
      else forEachObjectSafe_loop limit cb rest (i + 1) runCount
  end.

Definition forEachObjectSafe (entries : list (string * T))
    (limitOrCallback : LimitOrCallback) (callback : option EntryCallback) : M S unit :=
  fun s =>
    match overload limitOrCallback callback with
    | Throw e => (Throw e, s)
    | Normal (limit, cb) =>
        if reached limit 0 then (Normal tt, s)
        else forEachObjectSafe_loop limit cb entries 0 0 s
    end.
End Arrays.

(** A callback as seen from outside: every call is logged with its
    arguments, and returns, or throws what [behaviour] says. *)
Definition watched {T} (behaviour : T -> Z -> option value) : Callback (S := list (T * Z)) :=
  fun item index log =>
    (match behaviour item index with
     | None => Normal tt
     | Some e => Throw e
     end, log ++ [(item, index)]).

(** The items of an array with their indexes, counted from [i]. *)
Fixpoint indexed {T} (i : Z) (thing : list T) : list (T * Z) :=
  match thing with
  | [] => []
  | item :: rest => (item, i) :: indexed (i + 1) rest
  end.

(** The calls of a list that are made when the first one that throws ends
    the loop, and how the loop ends. *)
Fixpoint until_throw {T} (behaviour : T -> Z -> option value) (calls : list (T * Z)) :
    completion unit * list (T * Z) :=
  match calls with
  | [] => (Normal tt, [])
  | (item, index) :: rest =>
      match behaviour item index with
      | Some e => (Throw e, [(item, index)])
      | None => let '(c, made) := until_throw behaviour rest in (c, (item, index) :: made)
      end
  end.

(** The number of items that a [limit] lets through, of [n]. *)
Definition within (limit : option Z) (n : nat) : nat :=
  match limit with
  | Some limit => if 0 <? limit then Z.to_nat limit `min` n else n
  | None => n
  end.

(** How many more items the loop visits when it stands at index [i]. *)
Definition remaining (limit : option Z) (i : Z) (n : nat) : nat :=
  match limit with
  | Some limit => if 0 <? limit then Z.to_nat (limit - i) `min` n else n
  | None => n
  end.

End Iterable.

(** ** Sample inputs *)

Module Samples.
Import Concurrently.

(** Stand-ins for [Hash.sha256] and [isPlainObject], used to run the model
    on sample inputs: a signature that is the source text itself (no two
    texts collide) and a predicate true of object literals only. *)
Definition text_signature : Hash := fun s => s.
Definition literal_objects : Utils :=
  fun v => match v with VPlainObject _ => true | _ => false end.

(** A listener that returns [undefined], with the given source text. *)
Definition quiet (text : string) : Events.Listener :=
  {| Events.toString := text; Events.call := fun _ => Normal VUndefined |}.

(** An emitter on which two listeners subscribed to ["tick"], one after the
    other. *)
Definition two_listeners : Events.EventEmitter :=
  snd (Events.subscribe (H := text_signature) "tick" (quiet "() => second()") VUndefined None
    (snd (Events.subscribe (H := text_signature) "tick" (quiet "() => first()") VUndefined None
       Events.new))).

(** [new Stack({ order: 'fifo' })] *)
Definition fifo_stack : Stack.Stack Z :=
  Stack.new (Some {| Stack.init_order := Some (Stack.OrderName "fifo") |}).

(** Three callbacks run two at a time: the second rejects first, then the
    first and the third fulfil. *)
Definition demo_callbacks : list (unit -> Work) :=
  [fun _ => Resolves (VNumber 1); fun _ => RejectsWith (VString "no");
   fun _ => Resolves (VNumber 3)].

Definition demo_run : Runner :=
  next (take_immediate
    (record 2 (fulfilled (VNumber 3))
      (record 0 (fulfilled (VNumber 1))
        (next (take_immediate
          (record 1 (rejected (VString "no"))
            (promiseConcurrency demo_callbacks 2))))))).

(** A processing function that fulfils with the job's data after 5 ms. *)
Definition echo : EventLoop.ProcessFn :=
  fun job => EventLoop.Fulfils 5 (EventLoop.data job).

(** A processing function that rejects with the job's data after 3 ms. *)
Definition refuse : EventLoop.ProcessFn :=
  fun job => EventLoop.Rejects 3 (EventLoop.data job).

(** A processing function whose promise never settles. *)
Definition hang : EventLoop.ProcessFn := fun _ => EventLoop.NeverSettles.

(** [const q = new EventLoop(); q.start(fn);] *)
Definition started (fn : EventLoop.ProcessFn) : EventLoop.World :=
  snd (EventLoop.start fn (EventLoop.new None)).


(** [q.start(echo); q.add(1); q.add(2); q.add(3);] *)
Definition three_jobs : EventLoop.World :=
  snd (EventLoop.add (VNumber 3) None None
    (snd (EventLoop.add (VNumber 2) None None
      (snd (EventLoop.add (VNumber 1) None None (started echo)))))).

(** [q.start(fn); q.add(data);] *)
Definition plain_job (fn : EventLoop.ProcessFn) (data : value) : EventLoop.World :=
  snd (EventLoop.add data None None (started fn)).

(** The job that [plain_job] enqueues. *)
Definition the_plain_job (data : value) : EventLoop.Job :=
  {| EventLoop.data := data; EventLoop.jobId := 0; EventLoop.queuedAt := 0;
     EventLoop.messageType := None;
     EventLoop.options := {| EventLoop.timeout := None; EventLoop.delay := None |} |}.



End Samples.

(** * Properties *)

(** ** The ordered queue *)

Section StackFacts.
Import Array Stack Samples.
Context {T : Type} `{Item T}.

Lemma findIndex_from_none (p : T -> bool) (l : list T) (i : Z) :
  (forall y, y ∈ l -> p y = false) -> findIndex_from p l i = -1.
Proof.
  revert i. induction l as [|y l IH]; intros i Hall; simpl; [done|].
  rewrite (Hall y) by left. apply IH. intros z Hz. apply Hall. by right.
Qed.

Lemma splice1_last (l : list T) : snd (splice1 (-1) l) = removelast l.
Proof.
  unfold splice1. simpl. rewrite removelast_firstn_len.
  destruct l as [|x l]; [done|].
  replace (Z.to_nat (Z.max (Z.of_nat (length (x :: l)) + -1) 0)) with (length l)
    by (simpl; lia).
  rewrite (drop_ge (x :: l)) by (simpl; lia). by rewrite app_nil_r.
Qed.

Lemma splice1_first (x : T) (l : list T) : splice1 0 (x :: l) = ([x], l).
Proof. unfold splice1. simpl. by rewrite drop_0. Qed.

Lemma splice1_end (x : T) (l : list T) :
  splice1 (Z.of_nat (length (l ++ [x])) - 1) (l ++ [x]) = ([x], l).
Proof.
  unfold splice1. rewrite length_app. simpl.
  assert ((Z.of_nat (length l + 1) - 1 <? 0) = false) as -> by (apply Z.ltb_ge; lia).
  replace (Z.to_nat (Z.min (Z.of_nat (length l + 1) - 1) (Z.of_nat (length l + 1))))
    with (length l) by lia.
  rewrite drop_app_length, take_app_length.
  rewrite (drop_ge (l ++ [x])) by (rewrite length_app; simpl; lia).
  by rewrite app_nil_r.
Qed.

(** What [pop] does to a FIFO queue whose front item is truthy and occurs
    nowhere else: the second [splice] is given [indexOf(item) = -1] and
    removes the item at the back as well. *)
Lemma pop_fifo_distinct (x : T) (l : list T) :
  truthy x = true -> (forall y, y ∈ l -> strictEq y x = false) ->
  pop {| order := FIFO; items := x :: l |} =
    (Some x, {| order := FIFO; items := removelast l |}).
Proof.
  intros Hx Hl. unfold pop. simpl items. simpl order.
  rewrite splice1_first. simpl. rewrite Hx.
  unfold indexOf, Array.findIndex. rewrite findIndex_from_none by done.
  rewrite <- splice1_last. reflexivity.
Qed.

(** The same for the other order, which pushes at the front and pops at
    the back. *)
Lemma pop_lifo_distinct (x : T) (l : list T) :
  truthy x = true -> (forall y, y ∈ l -> strictEq y x = false) ->
  pop {| order := LIFO; items := l ++ [x] |} =
    (Some x, {| order := LIFO; items := removelast l |}).
Proof.
  intros Hx Hl. unfold pop. simpl items. simpl order.
  assert ((0 <? Z.of_nat (length (l ++ [x]))) = true) as ->.
  { apply Z.ltb_lt. rewrite length_app. simpl. lia. }
  rewrite splice1_end. simpl. rewrite Hx.
  unfold indexOf, Array.findIndex. rewrite findIndex_from_none by done.
  rewrite <- splice1_last. reflexivity.
Qed.
End StackFacts.

Section StackTheorems.
Import Stack Samples.

(** C1 (the code departs from it).  A FIFO queue is given 1, 2, 3 by
    [push]: its size is 3.  One [pop] returns 1 and leaves the queue holding
    2 alone, size 1 and not 2: the item at the back was removed with the one
    popped. *)
Theorem pop_removes_two_items :
  let s := push [1; 2; 3] fifo_stack in
  size s = 3 /\
  pop s = (Some 1, {| order := FIFO; items := [2] |}) /\
  size (snd (pop s)) = 1.
Proof. vm_compute. done. Qed.
End StackTheorems.

(** ** The event emitter *)

Section EventsFacts.
Import Array Events.

Lemma length_splice1 {T} (k : Z) (l : list T) :
  (length (snd (splice1 k l)) <= length l)%nat.
Proof.
  unfold splice1. simpl. rewrite length_app, length_take, length_drop. lia.
Qed.

Lemma length_splice1_found {T} (k : Z) (l : list T) :
  -1 < k < Z.of_nat (length l) -> (length (snd (splice1 k l)) + 1 = length l)%nat.
Proof.
  intros Hk. unfold splice1. simpl.
  assert ((k <? 0) = false) as -> by (apply Z.ltb_ge; lia).
  rewrite length_app, length_take, length_drop. lia.
Qed.

Lemma findIndex_from_range {T} (p : T -> bool) (l : list T) (i : Z) :
  findIndex_from p l i = -1 \/
  i <= findIndex_from p l i < i + Z.of_nat (length l).
Proof.
  revert i. induction l as [|x l IH]; intros i; simpl; [by left|].
  destruct (p x); [right; lia|]. destruct (IH (i + 1)) as [->|?]; [by left|right; lia].
Qed.

Lemma length_move_to_back {T} (p : T -> bool) (l : list T) (x : T) :
  -1 < findIndex p l -> length (snd (splice1 (findIndex p l) l) ++ [x]) = length l.
Proof.
  unfold findIndex. intros Hfound. rewrite length_app.
  destruct (findIndex_from_range p l 0) as [Hm|Hr]; [lia|].
  pose proof (length_splice1_found (findIndex_from p l 0) l ltac:(lia)) as Hs.
  change (length [x]) with 1%nat. lia.
Qed.

Lemma array_set_arrays_eq r x e :
  (r < length (arrays e))%nat -> array r (set_arrays (<[r := x]> (arrays e)) e) = x.
Proof. intros Hr. unfold array. simpl. by rewrite list_lookup_insert_eq. Qed.

Lemma array_set_arrays_ne r r' x e :
  r ≠ r' -> array r' (set_arrays (<[r := x]> (arrays e)) e) = array r' e.
Proof. intros Hr. unfold array. simpl. by rewrite list_lookup_insert_ne. Qed.

Lemma length_array_set_arrays r r' x e :
  (length x <= length (array r e))%nat ->
  (length (array r' (set_arrays (<[r := x]> (arrays e)) e)) <= length (array r' e))%nat.
Proof.
  intros Hx. destruct (decide (r = r')) as [<-|Hne].
  - destruct (decide (r < length (arrays e))%nat).
    + by rewrite array_set_arrays_eq.
    + unfold array. simpl. rewrite list_insert_ge by lia. done.
  - by rewrite array_set_arrays_ne.
Qed.

Lemma length_array_unsubscribe r p sig e :
  (length (array r (unsubscribe p sig e)) <= length (array r e))%nat.
Proof.
  unfold unsubscribe. case_match; [|done].
  change (array r (set_size ?n ?e')) with (array r e').
  apply length_array_set_arrays, length_splice1.
Qed.

(** One round of the loop of [emit] never lengthens the array it walks,
    so the fuel [emit] starts with is enough: more fuel changes nothing. *)
Lemma emit_loop_fuel (fuel extra : nat) listeners args i results e :
  (length (array listeners e) <= i + fuel)%nat ->
  emit_loop (fuel + extra) listeners args i results e =
  emit_loop fuel listeners args i results e.
Proof.
  revert i results e. induction fuel as [|fuel IH]; intros i results e Hlen.
  - destruct extra as [|extra]; [done|]. simpl.
    rewrite lookup_ge_None_2 by lia. done.
  - change (S fuel + extra)%nat with (S (fuel + extra)). cbn [emit_loop].
    destruct (array listeners e !! i) as [subscription|] eqn:Hsub; [|done].
    destruct (isDisposed subscription); [apply IH; lia|].
    destruct (once subscription && (0 <? calls subscription)).
    { apply IH. pose proof (length_array_unsubscribe listeners
        (previousListeners subscription) (listenerSignature subscription) e). lia. }
    destruct (call (listener subscription) args) as [v|err].
    + match goal with |- context [if ?c then ?a else ?b] =>
        assert (length (array listeners (if c then a else b)) <= length (array listeners e))%nat
          as Hle end; [|apply IH; lia].
      pose proof (lookup_lt_Some _ _ _ Hsub) as Hi.
      set (e1 := set_arrays _ (log_delivered _ e)).
      assert (length (array listeners e1) <= length (array listeners e))%nat as H1.
      { subst e1. apply (length_array_set_arrays listeners listeners _ (log_delivered _ e)).
        by rewrite length_insert. }
      case_match eqn:Hfound; [|done].
      etransitivity; [|exact H1].
      apply length_array_set_arrays.
      rewrite length_move_to_back; [done|by apply Z.ltb_lt].
    + match goal with |- context [if ?c then ?a else ?b] =>
        assert (length (array listeners (if c then a else b)) <= length (array listeners e))%nat
          as Hle end; [|apply IH; lia].
      pose proof (lookup_lt_Some _ _ _ Hsub) as Hi.
      set (e1 := set_arrays _ (log_reported _ (log_delivered _ e))).
      assert (length (array listeners e1) <= length (array listeners e))%nat as H1.
      { subst e1.
        apply (length_array_set_arrays listeners listeners _ (log_reported _ (log_delivered _ e))).
        by rewrite length_insert. }
      case_match eqn:Hfound; [|done].
      etransitivity; [|exact H1].
      apply length_array_set_arrays.
      rewrite length_move_to_back; [done|by apply Z.ltb_lt].
Qed.


(** With one subscription in the array, neither disposed nor exhausted,
    [emit] calls it once. *)
Lemma emit_single_listener event args e listeners subscription :
  _disposed e = false ->
  _listeners e !! event = Some listeners ->
  arrays e !! listeners = Some [subscription] ->
  isDisposed subscription = false ->
  once subscription && (0 <? calls subscription) = false ->
  delivered (snd (emit event args e)) =
    delivered e ++ [(subscriptionId subscription, args)].
Proof.
  intros Hd Hl Ha Hdis Honce. unfold emit. rewrite Hd, Hl.
  assert (array listeners e = [subscription]) as Harr by (unfold array; by rewrite Ha).
  rewrite Harr. cbn [length emit_loop]. rewrite Harr. cbn [lookup list_lookup].
  rewrite Hdis, Honce.
  destruct (call (listener subscription) args) as [v|err]; case_match; done.
Qed.
End EventsFacts.

Section EventsTheorems.
Import Events Samples.

(** C3 (the code departs from it).  Two listeners are subscribed to
    ["tick"], neither disposed nor [once]; subscription 0 was registered
    first, subscription 1 second.  One [emit("tick", 7)] calls subscription 0
    twice and subscription 1 not at all: moving the subscription just called
    to the back of the array shifts the next one under the iterator. *)
Theorem emit_skips_and_repeats :
  map subscriptionId (array 0 two_listeners) = [0%nat; 1%nat] /\
  map isDisposed (array 0 two_listeners) = [false; false] /\
  map once (array 0 two_listeners) = [false; false] /\
  delivered (snd (emit "tick" [VNumber 7] two_listeners)) =
    [(0%nat, [VNumber 7]); (0%nat, [VNumber 7])].
Proof. vm_compute. done. Qed.
End EventsTheorems.

(** ** The bounded runners *)

Section ArrayFacts.
Context {A : Type}.
Implicit Types (l : list (option A)) (i j : nat) (x : A).
Import Concurrently.

Lemma array_get_set_eq l i x : array_get i (array_set i x l) = Some x.
Proof.
  unfold array_get, array_set. case_decide as Hi.
  - by rewrite list_lookup_insert_eq.
  - rewrite lookup_app_r by lia. rewrite lookup_app_r; rewrite length_replicate; [|lia].
    by replace (i - length l - (i - length l))%nat with 0%nat by lia.
Qed.

Lemma array_get_set_ne l i j x : i ≠ j -> array_get j (array_set i x l) = array_get j l.
Proof.
  intros Hne. unfold array_get, array_set. case_decide as Hi.
  - by rewrite list_lookup_insert_ne.
  - destruct (decide (j < length l)%nat) as [Hj|Hj].
    + by rewrite lookup_app_l.
    + rewrite (lookup_ge_None_2 l j) by lia. rewrite lookup_app_r by lia.
      destruct (decide (j - length l < i - length l)%nat) as [Hlt|Hge].
      * rewrite lookup_app_l by (rewrite length_replicate; lia).
        rewrite lookup_replicate_2 by lia. done.
      * rewrite lookup_app_r by (rewrite length_replicate; lia).
        rewrite length_replicate.
        destruct (j - length l - (i - length l))%nat as [|k] eqn:E; [lia|done].
Qed.

Lemma length_array_set l i x : length (array_set i x l) = (length l `max` S i)%nat.
Proof.
  unfold array_set. case_decide.
  - rewrite length_insert. lia.
  - rewrite !length_app, length_replicate. simpl. lia.
Qed.
End ArrayFacts.

Section RunnerFacts.
Import Concurrently Deferred.



Lemma length_filter_remove (l : list nat) (x : nat) :
  NoDup l -> x ∈ l -> (length (filter (fun i => i ≠ x) l) + 1 = length l)%nat.
Proof.
  induction 1 as [|y l Hy Hl IH]; intros Hx.
  - by apply elem_of_nil in Hx.
  - apply elem_of_cons in Hx. rewrite filter_cons. case_decide as Hd; simpl.
    + destruct Hx as [->|Hx]; [done|]. rewrite <- (IH Hx). lia.
    + assert (y = x) as -> by (destruct (decide (y = x)); [done|contradiction]).
      assert (filter (fun i => i ≠ x) l = l) as ->; [|lia].
      clear -Hy. induction l as [|z l IH]; [done|].
      rewrite filter_cons. apply not_elem_of_cons in Hy as [Hz Hy].
      case_decide; [by rewrite IH|congruence].
Qed.

Lemma inv_weaken c c' r : c <= c' -> inv c r -> inv c' r.
Proof. intros Hc [? ? ? ? ? ? ? ? ?]. split; auto. lia. Qed.

Lemma inv_init ws : inv 0 (init ws).
Proof.
  split; unfold total; simpl.
  - lia.
  - constructor.
  - intros i Hi. by apply elem_of_nil in Hi.
  - lia.
  - lia.
  - lia.
  - intros i Hi. lia.
  - by left.
  - done.
Qed.

Lemma inv_next c r : inv c r -> inv (c + 1) (next r).
Proof.
  intros [Hcur Hnd Hcl Hcnt Hsl Hlen Hrec Hdef Hout]. unfold next, total in *.
  destruct (cursor r <? Z.of_nat (length (works r))) eqn:Hlt.
  - apply Z.ltb_lt in Hlt. split; unfold total; simpl.
    + lia.
    + apply NoDup_app. split_and!; [done| |apply NoDup_singleton].
      intros i Hi Hi'. apply list_elem_of_singleton in Hi'. apply Hcl in Hi. lia.
    + intros i [Hi|Hi]%elem_of_app.
      * apply Hcl in Hi. lia.
      * apply list_elem_of_singleton in Hi. lia.
    + rewrite length_app. simpl. lia.
    + rewrite length_app. simpl. lia.
    + lia.
    + intros i Hi Hni. apply Hrec.
      * destruct (decide (i = Z.to_nat (cursor r))) as [->|Hne]; [|lia].
        exfalso. apply Hni, elem_of_app. right. by apply list_elem_of_singleton.
      * intros Hin. apply Hni, elem_of_app. by left.
    + done.
    + done.
  - destruct (settled r =? Z.of_nat (length (works r))) eqn:Heq.
    + apply Z.eqb_eq in Heq. split; unfold total; simpl; auto; try lia.
      right. split; [done|].
      destruct Hdef as [->|[_ ->]]; done.
    + split; auto. lia.
Qed.

Lemma inv_launch fuel k c r : inv c r -> inv (c + Z.max k 0) (launch fuel k r).
Proof.
  revert k c r. induction fuel as [|fuel IH]; intros k c r Hinv; simpl.
  - eapply inv_weaken; [|done]. lia.
  - destruct (0 <=? k - 1) eqn:Hk.
    + apply Z.leb_le in Hk. eapply inv_weaken; [|apply IH, inv_next, Hinv]. lia.
    + eapply inv_weaken; [|done]. lia.
Qed.

Lemma inv_take_immediate c r :
  inv c r -> (0 < immediates r)%nat -> inv (c - 1) (take_immediate r).
Proof.
  intros [Hcur Hnd Hcl Hcnt Hsl Hlen Hrec Hdef Hout] Himm.
  split; unfold total in *; simpl; auto; lia.
Qed.

Lemma inv_step c r r' : inv c r -> step r r' -> inv c r'.
Proof.
  intros Hinv Hstep. destruct Hstep as [r index w entry Hin Hw He | r Himm].
  - destruct Hinv as [Hcur Hnd Hcl Hcnt Hsl Hlen Hrec Hdef Hout].
    pose proof (length_filter_remove _ _ Hnd Hin) as Hflt.
    split; unfold total in *; simpl.
    + done.
    + by apply NoDup_filter.
    + intros i [_ Hi]%list_elem_of_filter. by apply Hcl.
    + lia.
    + lia.
    + rewrite length_array_set. apply Hcl in Hin. lia.
    + intros i Hi Hni. destruct (decide (i = index)) as [->|Hne].
      * exists w, entry. by rewrite array_get_set_eq.
      * rewrite array_get_set_ne by done. apply Hrec; [done|].
        intros Hin'. apply Hni, list_elem_of_filter. done.
    + destruct Hdef as [Hp|[Hs _]]; [by left|].
      exfalso. destruct (inflight r); [by apply elem_of_nil in Hin|simpl in *; lia].
    + done.
  - apply inv_take_immediate in Hinv; [|done].
    apply inv_next in Hinv. eapply inv_weaken; [|done]. lia.
Qed.

Lemma inv_reachable c r0 r : inv c r0 -> reachable r0 r -> inv c r.
Proof. intros H0 Hr. induction Hr; eauto using inv_step. Qed.

(** The fuel that the entry points give to the [while] loop is enough: the
    loop stops by its own test, and more fuel changes nothing. *)
Lemma launch_fuel (fuel extra : nat) (k : Z) (r : Runner) :
  k <= Z.of_nat fuel -> launch (fuel + extra) k r = launch fuel k r.
Proof.
  revert k r. induction fuel as [|fuel IH]; intros k r Hk.
  - destruct extra as [|extra]; [done|]. simpl.
    assert ((0 <=? k - 1) = false) as -> by (apply Z.leb_gt; lia). done.
  - change (S fuel + extra)%nat with (S (fuel + extra)). simpl.
    case_match; [|done]. apply IH. lia.
Qed.

Lemma works_next r : works (next r) = works r.
Proof. unfold next. repeat case_match; done. Qed.

Lemma works_launch fuel k r : works (launch fuel k r) = works r.
Proof.
  revert k r. induction fuel as [|fuel IH]; intros k r; simpl; [done|].
  case_match; [|done]. by rewrite IH, works_next.
Qed.

Lemma works_step r r' : step r r' -> works r' = works r.
Proof. destruct 1; simpl; [done|]. by rewrite works_next. Qed.

Lemma works_reachable r0 r : reachable r0 r -> works r = works r0.
Proof. induction 1 as [|? ? ? Hs _ IH]; [done|]. by rewrite IH, (works_step _ _ Hs). Qed.


Lemma live_next c r : inv c r -> live (next r).
Proof.
  intros [Hcur Hnd Hcl Hcnt Hsl Hlen Hrec Hdef Hout]. unfold next, live, total in *.
  destruct (cursor r <? Z.of_nat (length (works r))) eqn:Hlt; simpl.
  - right; right. intros Heq. by apply app_eq_nil in Heq as [_ ?].
  - apply Z.ltb_ge in Hlt.
    destruct (settled r =? Z.of_nat (length (works r))) eqn:Heq; simpl.
    + left. destruct Hdef as [->|[_ ->]]; simpl; eauto.
    + apply Z.eqb_neq in Heq. right; right. intros Hnil. rewrite Hnil in Hcnt.
      simpl in Hcnt. lia.
Qed.

Lemma live_launch fuel k c r : inv c r -> live r -> live (launch fuel k r).
Proof.
  revert k c r. induction fuel as [|fuel IH]; intros k c r Hinv Hlive; simpl; [done|].
  case_match; [|done]. eapply IH; eauto using inv_next, live_next.
Qed.

Lemma live_launch_pos k ws : 1 <= k -> live (launch (Z.to_nat k) k (init ws)).
Proof.
  intros Hk. destruct (Z.to_nat k) as [|fuel] eqn:E; [lia|]. simpl.
  assert ((0 <=? k - 1) = true) as -> by (apply Z.leb_le; lia).
  eapply live_launch; eauto using inv_next, live_next, inv_init.
Qed.

Lemma live_step c r r' : inv c r -> step r r' -> live r'.
Proof.
  intros Hinv Hstep. destruct Hstep as [r index w entry Hin Hw He | r Himm].
  - right; left. simpl. lia.
  - eapply (live_next (c - 1)). by apply inv_take_immediate.
Qed.

Lemma live_reachable c r0 r : inv c r0 -> live r0 -> reachable r0 r -> live r.
Proof.
  intros H0 Hl Hr. induction Hr as [|x y z Hxy Hyz IH]; [done|].
  apply IH; eauto using inv_step, live_step.
Qed.


Lemma measure_next r : measure (next r) = measure r.
Proof. unfold measure, total, next. repeat case_match; done. Qed.

Lemma measure_step c r r' : inv c r -> step r r' -> 0 <= measure r' < measure r.
Proof.
  intros Hinv Hstep. destruct Hstep as [r index w entry Hin Hw He | r Himm];
    destruct Hinv as [Hcur Hnd Hcl Hcnt Hsl Hlen Hrec Hdef Hout].
  - unfold measure, total in *. simpl.
    destruct (inflight r) as [|j l] eqn:E; [by apply elem_of_nil in Hin|].
    simpl in *. lia.
  - rewrite measure_next. unfold measure, total in *. simpl. lia.
Qed.

(** When the aggregate promise is fulfilled, every callback has settled
    and the array holds each entry at the index of its callback. *)
Lemma inv_fulfilled c r res :
  inv c r -> promise (deferred r) = Fulfilled res ->
  settled r = total r /\ inflight r = [] /\ res = results r /\
  length res = length (works r) /\
  forall i w, works r !! i = Some w ->
    exists entry, entry_of w = Some entry /\ res !! i = Some (Some entry).
Proof.
  intros [Hcur Hnd Hcl Hcnt Hsl Hlen Hrec Hdef Hout] Hres. unfold total in *.
  destruct Hdef as [Hp|[Hs Hp]]; [congruence|].
  assert (res = results r) as -> by congruence.
  assert (inflight r = []) as Hnil by (destruct (inflight r); [done|simpl in *; lia]).
  rewrite Hnil in *. simpl in *.
  assert (forall i w, works r !! i = Some w ->
    exists entry, entry_of w = Some entry /\ results r !! i = Some (Some entry)) as Hall.
  { intros i w Hw. pose proof (lookup_lt_Some _ _ _ Hw) as Hi.
    destruct (Hrec i) as (w' & e & Hw' & He & Hget); [lia|apply not_elem_of_nil|].
    assert (w' = w) as -> by congruence. exists e. split; [done|].
    unfold array_get in Hget. destruct (results r !! i) as [[x|]|]; simpl in *; congruence. }
  split_and!; try done.
  apply Nat.le_antisymm; [lia|].
  destruct (length (works r)) as [|n] eqn:En; [lia|].
  destruct (lookup_lt_is_Some_2 (works r) n) as [w Hw]; [lia|].
  destruct (Hall n w Hw) as (e & _ & Hl). apply lookup_lt_Some in Hl. lia.
Qed.
End RunnerFacts.

Section RunnerTheorems.
Import Concurrently Deferred.

Lemma inv_mapPromises {Args} (args : list Args) (callback : Args -> Work) (k : Z) :
  inv (Z.max k 0) (mapPromises args callback k).
Proof. unfold mapPromises. apply (inv_launch _ _ 0), inv_init. Qed.

Lemma inv_promiseConcurrency (callbacks : list (unit -> Work)) (k : Z) :
  inv (Z.max k 0) (promiseConcurrency callbacks k).
Proof. unfold promiseConcurrency. apply (inv_launch _ _ 0), inv_init. Qed.


(** C6.  For [promiseConcurrency(callbacks, K)] with [N] callbacks and
    [1 <= K < N]: never more than [K] callbacks are in flight; when the
    aggregate promise is fulfilled all [N] callbacks have settled, none is
    in flight, and the array it carries has length [N] and holds the entry
    of each callback at that callback's index.  It does get fulfilled when
    every callback settles: each step lowers [measure], and a state from
    which no step is left has the promise fulfilled. *)
Theorem promiseConcurrency_bounded_in_order (callbacks : list (unit -> Work))
    (K : Z) (r : Runner) :
  1 <= K < Z.of_nat (length callbacks) ->
  reachable (promiseConcurrency callbacks K) r ->
  Z.of_nat (length (inflight r)) <= K /\
  (forall res, promise (deferred r) = Fulfilled res ->
      settled r = Z.of_nat (length callbacks) /\
      inflight r = [] /\
      length res = length callbacks /\
      forall i callback, callbacks !! i = Some callback ->
        exists entry, entry_of (callback tt) = Some entry /\
                      res !! i = Some (Some entry)) /\
  (forall r', step r r' -> 0 <= measure r' < measure r) /\
  ((forall callback, callback ∈ callbacks -> callback tt <> StaysPending) ->
   (forall r', ~ step r r') ->
   exists res, promise (deferred r) = Fulfilled res).
Proof.
  intros HK Hreach.
  pose proof (inv_promiseConcurrency callbacks K) as Hinv0.
  pose proof (inv_reachable _ _ _ Hinv0 Hreach) as Hinv.
  assert (works r = map (fun callback => callback tt) callbacks) as Hworks.
  { rewrite (works_reachable _ _ Hreach). unfold promiseConcurrency.
    by rewrite works_launch. }
  split_and!.
  - pose proof (inv_slots _ _ Hinv). lia.
  - intros res Hres.
    destruct (inv_fulfilled _ _ _ Hinv Hres) as (Hs & Hnil & _ & Hlen & Hall).
    unfold total in Hs. rewrite Hworks, length_map in Hs, Hlen.
    split_and!; try done.
    intros i callback Hi. apply (Hall i (callback tt)).
    by rewrite Hworks, list_lookup_fmap, Hi.
  - intros r'. apply (measure_step _ _ _ Hinv).
  - intros Hall Hstuck.
    assert (live r) as Hlive.
    { eapply live_reachable; [apply Hinv0| |done].
      unfold promiseConcurrency. apply live_launch_pos. lia. }
    destruct Hlive as [Hres|[Himm|Hfl]]; [done| |].
    + exfalso. eapply Hstuck. by eapply step_immediate.
    + exfalso. destruct (inflight r) as [|index l] eqn:E; [done|].
      assert (index ∈ inflight r) as Hin by (rewrite E; left).
      pose proof (inv_claimed _ _ Hinv index Hin) as Hlt.
      pose proof (inv_cursor _ _ Hinv) as Hcur. unfold total in Hcur.
      destruct (lookup_lt_is_Some_2 (works r) index) as [w Hw]; [lia|].
      assert (exists entry, entry_of w = Some entry) as [entry He].
      { rewrite Hworks, list_lookup_fmap in Hw.
        destruct (callbacks !! index) as [callback|] eqn:Hc; [|done].
        injection Hw as <-. apply list_elem_of_lookup_2 in Hc. apply Hall in Hc.
        destruct (callback tt); simpl; eauto. done. }
      eapply Hstuck. by eapply step_settle.
Qed.

(** C10.  With [concurrency <= 0] neither entry point launches a worker
    and the aggregate promise stays pending for ever, also for an empty
    input list: the state in which the entry point returns has no callback
    claimed, none in flight and no immediate pending, [resolve] has not been
    called, and it is the only state ever reached. *)
Theorem runners_idle_without_concurrency {Args} (args : list Args)
    (callback : Args -> Work) (callbacks : list (unit -> Work))
    (concurrency : Z) (r0 r : Runner) :
  concurrency <= 0 ->
  r0 = mapPromises args callback concurrency \/
  r0 = promiseConcurrency callbacks concurrency ->
  reachable r0 r ->
  r = r0 /\ cursor r = 0 /\ inflight r = [] /\ immediates r = 0%nat /\
  promise (deferred r) = Pending /\ _outcome (deferred r) = None /\
  settlements (deferred r) = 0%nat /\
  forall r', ~ step r r'.
Proof.
  intros Hk Hr0 Hreach.
  assert (exists ws, r0 = init ws) as [ws ->].
  { destruct Hr0 as [-> | ->]; unfold mapPromises, promiseConcurrency;
      replace (Z.to_nat concurrency) with 0%nat by lia; simpl; eauto. }
  assert (forall r', ~ step (init ws) r') as Hstuck.
  { intros r' Hs. inversion Hs as [? index w entry Hin|? Himm]; subst.
    - by apply elem_of_nil in Hin.
    - simpl in Himm. lia. }
  assert (r = init ws) as ->; [|by split_and!].
  remember (init ws) as r0 eqn:E.
  induction Hreach as [|x y z Hxy Hyz IH]; [done|]. subst x. exfalso.
  by eapply Hstuck.
Qed.
End RunnerTheorems.

Section RunnerWitnesses.
Import Concurrently Deferred Samples.



Lemma demo_run_reachable : reachable (promiseConcurrency demo_callbacks 2) demo_run.
Proof.
  unfold demo_run, reachable.
  eapply rtc_l.
  { apply (step_settle _ 1%nat (RejectsWith (VString "no"))); vm_compute; [set_solver|done..]. }
  eapply rtc_l. { apply step_immediate. vm_compute. lia. }
  eapply rtc_l.
  { apply (step_settle _ 0%nat (Resolves (VNumber 1))); vm_compute; [set_solver|done..]. }
  eapply rtc_l.
  { apply (step_settle _ 2%nat (Resolves (VNumber 3))); vm_compute; [set_solver|done..]. }
  eapply rtc_l. { apply step_immediate. vm_compute. lia. }
  apply rtc_refl.
Defined.


Lemma promiseConcurrency_bounded_in_order_witness :
  1 <= 2 < Z.of_nat (length demo_callbacks) /\
  reachable (promiseConcurrency demo_callbacks 2) demo_run /\
  Z.of_nat (length (inflight demo_run)) <= 2 /\
  (forall res, promise (deferred demo_run) = Fulfilled res ->
     length res = length demo_callbacks).
Proof.
  assert (1 <= 2 < Z.of_nat (length demo_callbacks)) as HK by (simpl; lia).
  split; [exact HK|]. split; [apply demo_run_reachable|].
  destruct (promiseConcurrency_bounded_in_order demo_callbacks 2 demo_run HK
              demo_run_reachable) as (Hb & Hres & _).
  split; [exact Hb|]. intros res Hp. by destruct (Hres res Hp) as (_ & _ & Hlen & _).
Defined.

Lemma runners_idle_without_concurrency_witness :
  0 <= 0 /\
  reachable (promiseConcurrency [] 0) (promiseConcurrency [] 0) /\
  promise (deferred (promiseConcurrency [] 0)) = Pending.
Proof.
  split; [lia|]. split; [apply rtc_refl|].
  destruct (runners_idle_without_concurrency (Args := unit) [] (fun _ => StaysPending) [] 0
              (promiseConcurrency [] 0) (promiseConcurrency [] 0)
              (Z.le_refl 0) (or_intror eq_refl) (rtc_refl _ _)) as (_ & _ & _ & _ & Hp & _).
  exact Hp.
Defined.
End RunnerWitnesses.

(** ** The job scheduler *)

Section SchedulerFacts.
Import Events Deferred EventLoop.
Context `{Hash} `{Utils}.

(** The queue of a new scheduler is built with [{ order: Order.FIFO }];
    [Order.FIFO] is 0, which the constructor of [Stack] takes for a missing
    order, so the queue pushes at the front and pops at the back. *)
Lemma new_queue_order (options : option EventLoopOptions) :
  Stack.order (_eventLoopQueueStack (self (new options))) = Stack.LIFO.
Proof. reflexivity. Qed.

Lemma start_registers (fn : ProcessFn) (w w' : World) (d : nat) :
  start fn w = (Normal d, w') -> _eventLoopQueueProcessor (self w') = Some fn.
Proof.
  unfold start. destruct (_eventLoopQueueProcessor (self w)); [done|].
  unfold mbind, M_bind, on_ee, modify, get, put, mret, M_ret. simpl.
  destruct (emit _ _ _) as [[r|e] ee]; simpl; [|done].
  intros [= <- <-]. done.
Qed.

Lemma add_keeps_processor context type options' (w : World) :
  _eventLoopQueueProcessor (self (snd (add context type options' w))) =
  _eventLoopQueueProcessor (self w).
Proof. done. Qed.

Lemma addEventListener_keeps_processor event listener' thisArgs' options' (w : World) :
  _eventLoopQueueProcessor (self (snd (addEventListener event listener' thisArgs' options' w))) =
  _eventLoopQueueProcessor (self w).
Proof.
  unfold addEventListener, on_ee. by destruct (subscribe _ _ _ _ _) as [r e].
Qed.

Lemma fill_executing_keeps_processor (fuel : nat) (w : World) :
  _eventLoopQueueProcessor (self (fill_executing fuel w)) =
  _eventLoopQueueProcessor (self w).
Proof.
  revert w. induction fuel as [|fuel IH]; intros w; simpl; [done|].
  case_match; [|done]. destruct (Stack.pop _) as [[job|] stack]; [|done].
  by rewrite IH.
Qed.

(** The fuel that [#execute] gives to its [while] loop is enough: the loop
    stops by its own test, and more fuel changes nothing. *)
Lemma fill_executing_fuel (fuel extra : nat) (w : World) :
  (match concurrency (_options (self w)) with
   | Some c => if c =? 0 then 1 else c
   | None => 1
   end) - Z.of_nat (length (_executing (self w))) <= Z.of_nat fuel ->
  fill_executing (fuel + extra) w = fill_executing fuel w.
Proof.
  revert w. induction fuel as [|fuel IH]; intros w Hfuel.
  - destruct extra as [|extra]; [done|]. simpl.
    destruct (Z.of_nat (length (_executing (self w))) <? _) eqn:Hlt; [|done].
    apply Z.ltb_lt in Hlt. lia.
  - change (S fuel + extra)%nat with (S (fuel + extra)). simpl.
    destruct (Z.of_nat (length (_executing (self w))) <? _) eqn:Hlt; [|done].
    destruct (Stack.pop _) as [[job|] stack]; [|done].
    apply IH. simpl. rewrite length_app. simpl. lia.
Qed.

Lemma dispatch_keeps_processor (job : Job) (w : World) :
  _eventLoopQueueProcessor (self (dispatch job w)) = _eventLoopQueueProcessor (self w).
Proof. unfold dispatch. by case_match. Qed.

Lemma foldl_dispatch_keeps_processor (jobs : list Job) (w : World) :
  _eventLoopQueueProcessor (self (foldl (fun w job => dispatch job w) w jobs)) =
  _eventLoopQueueProcessor (self w).
Proof.
  revert w. induction jobs as [|job jobs IH]; intros w; simpl; [done|].
  by rewrite IH, dispatch_keeps_processor.
Qed.

Lemma execute_keeps_processor (w : World) :
  _eventLoopQueueProcessor (self (execute w)) = _eventLoopQueueProcessor (self w).
Proof.
  unfold execute. destruct (_eventLoopQueueProcessor (self w)) eqn:Hp; [|done].
  repeat case_match;
    rewrite ?foldl_dispatch_keeps_processor, ?fill_executing_keeps_processor; done.
Qed.

Lemma processJob_keeps_processor (job : Job) (w : World) :
  _eventLoopQueueProcessor (self (processJob job w)) = _eventLoopQueueProcessor (self w).
Proof. unfold processJob, invoke. repeat case_match; done. Qed.

Lemma on_finally_keeps_processor (job : Job) (w : World) :
  _eventLoopQueueProcessor (self (on_finally job w)) = _eventLoopQueueProcessor (self w).
Proof. unfold on_finally. by case_match. Qed.

Lemma settle_job_keeps_processor (job : Job) (outcome : completion value) (w : World) :
  _eventLoopQueueProcessor (self (settle_job job outcome w)) =
  _eventLoopQueueProcessor (self w).
Proof.
  unfold settle_job, try_catch, throw, on_fulfilled, on_rejected, mbind, M_bind, on_ee, modify.
  destruct outcome as [result|reason].
  - destruct (emit _ _ _) as [[r|e] ee]; simpl.
    + by rewrite on_finally_keeps_processor.
    + destruct (normalize e) as [error|e']; simpl.
      * destruct (emit _ _ _) as [[r|e'] ee']; simpl;
          by rewrite on_finally_keeps_processor.
      * by rewrite on_finally_keeps_processor.
  - destruct (normalize reason) as [error|e']; simpl.
    + destruct (emit _ _ _) as [[r|e'] ee']; simpl;
        by rewrite on_finally_keeps_processor.
    + by rewrite on_finally_keeps_processor.
Qed.

Lemma run_task_keeps_processor (t : Task) (w : World) :
  _eventLoopQueueProcessor (self (run_task t w)) = _eventLoopQueueProcessor (self w).
Proof.
  destruct t as [|job|job|job|job outcome]; simpl.
  - apply execute_keeps_processor.
  - apply processJob_keeps_processor.
  - done.
  - case_match; [done|]. by rewrite settle_job_keeps_processor.
  - repeat case_match; try done; by rewrite settle_job_keeps_processor.
Qed.

Lemma step_keeps_processor (w w' : World) :
  step w = Some w' ->
  _eventLoopQueueProcessor (self w') = _eventLoopQueueProcessor (self w).
Proof.
  unfold step. destruct (microtasks (host w)) as [|t rest].
  - destruct (timers (host w)) as [|[due t] rest]; [done|].
    intros [= <-]. by rewrite run_task_keeps_processor.
  - intros [= <-]. by rewrite run_task_keeps_processor.
Qed.

(** In the Processing state the processing function given to [start] is
    the registered one. *)
Lemma processing_registered (fn : ProcessFn) (w : World) :
  processing fn w -> _eventLoopQueueProcessor (self w) = Some fn.
Proof.
  induction 1 as [w w' d Hs|w context type options' _ IH
                  |w event listener' thisArgs' options' _ IH|w w' _ IH Hs].
  - by eapply start_registers.
  - by rewrite add_keeps_processor.
  - by rewrite addEventListener_keeps_processor.
  - by rewrite (step_keeps_processor _ _ Hs).
Qed.

(** [dispose] throws on a scheduler whose emitter is disposed:
    [removeAllEventListeners] goes through [EventEmitter.removeListeners],
    which refuses a disposed emitter. *)
Lemma dispose_throws_when_disposed (w : World) :
  _disposed (_ee (self w)) = true -> fst (dispose w) = Throw disposed_error.
Proof.
  destruct w as [[q p e o sp ex] h]. simpl. intros Hd.
  unfold dispose, removeAllEventListeners, mbind, M_bind, on_ee.
  unfold removeListeners, Events.dispose.
  destruct sp; simpl; rewrite Hd; done.
Qed.

(** [dispose] leaves the emitter disposed. *)
Lemma dispose_disposes (w : World) :
  _disposed (_ee (self (snd (dispose w)))) = true.
Proof.
  destruct w as [[q p e o sp ex] h].
  unfold dispose, removeAllEventListeners, mbind, M_bind, on_ee.
  unfold removeListeners, Events.dispose.
  destruct sp; simpl; destruct (_disposed e) eqn:Hd; simpl; rewrite ?Hd; done.
Qed.

(** Hence a second consecutive [dispose] throws. *)
Lemma dispose_again_throws (w : World) :
  fst (dispose (snd (dispose w))) = Throw disposed_error.
Proof. apply dispose_throws_when_disposed, dispose_disposes. Qed.

(** Whatever else it does, [dispose] clears the processor, the queue and
    the in-flight list, and resolves the pending [start()] promise once. *)
Lemma dispose_clears (w : World) :
  let w' := snd (dispose w) in
  _eventLoopQueueProcessor (self w') = None /\
  Stack.items (_eventLoopQueueStack (self w')) = [] /\
  _executing (self w') = [] /\
  _stopPromise (self w') = None /\
  deferreds (host w') =
    match _stopPromise (self w) with
    | Some d => alter (resolve VUndefined) d (deferreds (host w))
    | None => deferreds (host w)
    end.
Proof.
  destruct w as [[q p e o sp ex] h].
  unfold dispose, removeAllEventListeners, mbind, M_bind, on_ee.
  unfold removeListeners, Events.dispose.
  destruct sp; simpl; destruct (_disposed e) eqn:Hd; simpl; rewrite ?Hd; done.
Qed.





























End SchedulerFacts.

Section SchedulerTheorems.
Import Events Deferred EventLoop Samples.
Context `{Hash} `{Utils}.

(** C9.  In the Processing state a call of [start] throws the
    already-started exception and changes nothing: the processing function
    given to the first [start] is still the registered one. *)
Theorem start_twice_fails (w : World) (fn fn' : ProcessFn) :
  processing fn w ->
  start fn' w = (Throw already_started, w) /\
  _eventLoopQueueProcessor (self (snd (start fn' w))) = Some fn.
Proof.
  intros Hp%processing_registered. unfold start. rewrite Hp. done.
Qed.



End SchedulerTheorems.

Section SchedulerRuns.
Import Events Deferred EventLoop Samples.

Lemma start_twice_fails_witness :
  processing (H := text_signature) (H0 := literal_objects) echo (started echo) /\
  start refuse (started echo) = (Throw already_started, started echo).
Proof.
  assert (processing (H := text_signature) (H0 := literal_objects) echo (started echo))
    as Hp by (apply (processing_start echo (new None) (started echo) 0); reflexivity).
  split; [exact Hp|].
  exact (proj1 (start_twice_fails (started echo) echo refuse Hp)).
Defined.


(** C2 (the code departs from it).  A scheduler is started and given three
    jobs, 1, 2, 3, in this order.  When the host has nothing left to run the
    processing function has been called on job 1 only.  Job 2 is neither in
    the queue nor in flight: [pop] removed it together with job 1.  Job 3 is
    still queued and no drain is pending.  A fourth job is then added: the
    drain it triggers dispatches job 3 and loses job 4 in the same way.  The
    processing function is never called on jobs 2 and 4. *)
Theorem drain_skips_jobs :
  let w := run (H0 := literal_objects) 20 three_jobs in
  quiescent w = true /\
  map data (dispatched w) = [VNumber 1] /\
  map data (Stack.items (_eventLoopQueueStack (self w))) = [VNumber 3] /\
  _executing (self w) = [] /\
  let w' := run (H0 := literal_objects) 20 (snd (add (VNumber 4) None None w)) in
  quiescent w' = true /\
  map data (dispatched w') = [VNumber 1; VNumber 3] /\
  Stack.items (_eventLoopQueueStack (self w')) = [] /\
  _executing (self w') = [].
Proof. vm_compute. done. Qed.

(** C7 (the code departs from it).  On a new scheduler the first
    [dispose] returns and the second one throws the emitter's
    disposed-state exception.  On a started scheduler [dispose] fulfils the
    promise that [start] returned, by one call of [resolve], and a further
    [dispose] does not call [resolve] again. *)
Theorem second_dispose_throws :
  let w1 := snd (dispose (new None)) in
  fst (dispose (new None)) = Normal tt /\
  fst (dispose w1) = Throw disposed_error /\
  let w2 := snd (dispose (started echo)) in
  fst (start echo (new None)) = Normal 0%nat /\
  deferreds (host w2) !! 0%nat =
    Some {| promise := Fulfilled VUndefined; _outcome := Some (Resolved VUndefined);
            settlements := 1 |} /\
  deferreds (host (snd (dispose w2))) = deferreds (host w2).
Proof. vm_compute. done. Qed.




End SchedulerRuns.

(** * Further properties *)

(** ** The ordered queue, beyond [push] and [pop] *)

Section StackMore.
Import Array Stack Samples.
Context {T : Type} `{Item T}.

(** X1.  The constructor gives the FIFO order for the string ['fifo'] and
    for nothing else: every number, [Order.FIFO] (which is 0) included, every
    other string and a missing option give the LIFO order. *)
Theorem stack_order_of_init :
  (forall n, order (new (T := T) (Some {| init_order := Some (OrderNumber n) |})) = LIFO) /\
  (forall s, order (new (T := T) (Some {| init_order := Some (OrderName s) |})) = FIFO <->
             s = "fifo"%string) /\
  order (new (T := T) (Some {| init_order := None |})) = LIFO /\
  order (new (T := T) None) = LIFO.
Proof.
  split_and!; try reflexivity.
  - intros n. by destruct n.
  - intros s. unfold new. simpl.
    destruct (String.eqb s EmptyString) eqn:E1.
    + apply String.eqb_eq in E1. subst s. split; discriminate.
    + destruct (String.eqb s "fifo") eqn:E2.
      * apply String.eqb_eq in E2. done.
      * apply String.eqb_neq in E2. split; [discriminate|done].
Qed.

Lemma splice1_back (l : list T) :
  l ≠ [] ->
  exists x l', l = l' ++ [x] /\ splice1 (Z.of_nat (length l) - 1) l = ([x], l').
Proof.
  intros Hl. destruct (exists_last Hl) as (l' & x & ->).
  exists x, l'. split; [done|]. apply splice1_end.
Qed.

Lemma pop_front_or_back (s : Stack T) :
  fst (pop s) = match order s with
                | FIFO => head (items s)
                | LIFO => last (items s)
                end.
Proof.
  destruct s as [o l]. unfold pop. simpl items. simpl order.
  destruct l as [|x l]; [by destruct o|].
  change (0 <? Z.of_nat (length (x :: l))) with true. cbv iota.
  destruct o.
  - rewrite splice1_first. simpl. by destruct (truthy x).
  - destruct (splice1_back (x :: l)) as (y & l' & Heq & ->); [done|].
    rewrite Heq, last_snoc. simpl. by destruct (truthy y).
Qed.

(** X2.  [pop] returns the item at the front of the array in FIFO order and
    the one at the back in LIFO order, [null] when the array is empty;
    [peek] always shows the one at the back.  So in FIFO order [peek] does
    not show the item that [pop] is about to return, unless it is the only
    one. *)
Theorem pop_and_peek_ends (s : Stack T) :
  fst (pop s) = match order s with
                | FIFO => head (items s)
                | LIFO => last (items s)
                end /\
  peek s = last (items s).
Proof. split; [apply pop_front_or_back|reflexivity]. Qed.

Lemma items_push_each (o : Order) (xs init : list T) :
  items (foldl (fun s y => push [y] s) {| order := o; items := init |} xs) =
  match o with FIFO => init ++ xs | LIFO => rev xs ++ init end /\
  order (foldl (fun s y => push [y] s) {| order := o; items := init |} xs) = o.
Proof.
  revert init. induction xs as [|x xs IH]; intros init; simpl.
  - destruct o; simpl; [by rewrite app_nil_r|done].
  - unfold push at 2 4. simpl. destruct o; simpl.
    + destruct (IH (init ++ [x])) as [-> ->]. by rewrite <- app_assoc.
    + destruct (IH (x :: init)) as [-> ->]. by rewrite <- app_assoc.
Qed.

(** X3.  Items pushed one per call onto an empty stack come out oldest
    first in both orders: the LIFO order pushes at the front and pops at the
    back, so it is not last-in-first-out. *)
Theorem pop_returns_first_pushed (o : Order) (x : T) (xs : list T) :
  fst (pop (foldl (fun s y => push [y] s) {| order := o; items := [] |} (x :: xs))) =
  Some x.
Proof.
  rewrite pop_front_or_back.
  destruct (items_push_each o (x :: xs) []) as [-> ->].
  destruct o; simpl; [done|]. by rewrite app_nil_r, last_snoc.
Qed.

(** X4.  [pop] on an empty stack returns [null] and changes nothing; on a
    stack that is not empty it removes one item or two, never more and never
    none. *)
Theorem pop_size_bounds (s : Stack T) :
  match items s with
  | [] => pop s = (None, s)
  | _ :: _ => size s - 2 <= size (snd (pop s)) <= size s - 1
  end.
Proof.
  destruct s as [o l]. destruct l as [|x l]; [done|].
  unfold pop, size. cbn [items order].
  change (0 <? Z.of_nat (length (x :: l))) with true. cbv iota.
  assert (forall (y : T) (rest : list T),
    length rest = length l ->
    Z.of_nat (length (x :: l)) - 2 <=
      Z.of_nat (length (items (snd
        (if truthy y
         then (Some y, {| order := o; items := snd (splice1 (indexOf y rest) rest) |})
         else (Some y, {| order := o; items := rest |})))))
      <= Z.of_nat (length (x :: l)) - 1) as Hcase.
  { intros y rest Hlen. rewrite length_cons.
    destruct (truthy y); cbn [snd items]; [|lia].
    pose proof (length_splice1 (indexOf y rest) rest).
    assert (length rest <= length (snd (splice1 (indexOf y rest) rest)) + 1)%nat; [|lia].
    unfold splice1. cbn [snd]. rewrite length_app, length_take, length_drop. lia. }
  destruct o.
  - rewrite splice1_first. simpl head. cbv iota beta. by apply Hcase.
  - destruct (splice1_back (x :: l)) as (y & l' & Heq & ->); [done|].
    simpl head. cbv iota beta. apply Hcase.
    apply (f_equal length) in Heq. rewrite length_app in Heq. simpl in Heq. lia.
Qed.

(** X5.  When the item that [pop] returns is truthy and occurs nowhere
    else in the stack, [pop] removes a second item with it, the one at the
    back of what is left: the second [splice] is given
    [indexOf(item) = -1].  This holds in both orders. *)
Theorem pop_takes_back_item_too (x : T) (l : list T) :
  truthy x = true -> (forall y, y ∈ l -> strictEq y x = false) ->
  pop {| order := FIFO; items := x :: l |} =
    (Some x, {| order := FIFO; items := removelast l |}) /\
  pop {| order := LIFO; items := l ++ [x] |} =
    (Some x, {| order := LIFO; items := removelast l |}).
Proof.
  intros Hx Hl. split; [by apply pop_fifo_distinct|by apply pop_lifo_distinct].
Qed.

(** X6.  [deleteByIndex(i)] with [i >= 0]: when the stack has an item at
    index [i] that item is returned, it is the one [getByIndex(i)] shows, and
    the others keep their order; otherwise [undefined] is returned and the
    stack is unchanged. *)
Theorem deleteByIndex_nonnegative (s : Stack T) (i : Z) :
  0 <= i ->
  match items s !! Z.to_nat i with
  | Some x =>
      getByIndex i s = Some x /\
      deleteByIndex i s = (Some x, {| order := order s; items := delete (Z.to_nat i) (items s) |})
  | None => getByIndex i s = None /\ deleteByIndex i s = (None, s)
  end.
Proof.
  intros Hi. destruct s as [o l]. unfold getByIndex, deleteByIndex, splice1. simpl.
  assert ((i <? 0) = false) as -> by (apply Z.ltb_ge; lia).
  destruct (l !! Z.to_nat i) as [x|] eqn:Hx.
  - pose proof (lookup_lt_Some _ _ _ Hx) as Hlt.
    replace (Z.to_nat (Z.min i (Z.of_nat (length l)))) with (Z.to_nat i) by lia.
    split; [done|]. f_equal.
    + rewrite <- (take_drop_middle l (Z.to_nat i) x Hx) at 1.
      rewrite drop_app_length'; [done|]. rewrite length_take. lia.
    + f_equal. by rewrite delete_take_drop.
  - pose proof (lookup_ge_None_1 _ _ Hx) as Hge.
    replace (Z.to_nat (Z.min i (Z.of_nat (length l)))) with (length l) by lia.
    split; [done|]. rewrite drop_all, firstn_all, (drop_ge l) by lia.
    by rewrite app_nil_r.
Qed.

(** X7.  With a negative index the two accessors part: [getByIndex] finds
    nothing, while [deleteByIndex] counts from the back of the array, as
    [splice] does, and removes the item there. *)
Theorem deleteByIndex_negative (s : Stack T) (i : Z) :
  i < 0 ->
  getByIndex i s = None /\
  deleteByIndex i s = deleteByIndex (Z.max (size s + i) 0) s.
Proof.
  intros Hi. unfold getByIndex, deleteByIndex, splice1, size.
  assert ((i <? 0) = true) as -> by (apply Z.ltb_lt; lia).
  assert ((Z.max (Z.of_nat (length (items s)) + i) 0 <? 0) = false) as ->
    by (apply Z.ltb_ge; lia).
  split; [done|].
  replace (Z.min (Z.max (Z.of_nat (length (items s)) + i) 0) (Z.of_nat (length (items s))))
    with (Z.max (Z.of_nat (length (items s)) + i) 0) by lia.
  done.
Qed.

(** X8.  [enumerate] pairs every item with its index in the array, in
    array order. *)
Theorem enumerate_lookup (s : Stack T) (i : nat) :
  enumerate s !! i = (fun item => (Z.of_nat i, item)) <$> items s !! i.
Proof.
  unfold enumerate.
  assert (forall (l : list T) (k : Z) (j : nat),
    enumerate_from k l !! j = (fun item => (k + Z.of_nat j, item)) <$> l !! j) as Hgen.
  { induction l as [|x l IH]; intros k j; [done|]. destruct j as [|j]; simpl.
    - by rewrite Z.add_0_r.
    - rewrite IH. destruct (l !! j); simpl; [|done]. do 2 f_equal. lia. }
  rewrite Hgen. by destruct (items s !! i).
Qed.
End StackMore.

Section StackMoreWitnesses.
Import Array Stack Samples.

Lemma pop_takes_back_item_too_witness :
  truthy 1 = true /\
  pop {| order := FIFO; items := [1; 2; 3] |} = (Some 1, {| order := FIFO; items := [2] |}) /\
  pop {| order := LIFO; items := [2; 3; 1] |} = (Some 1, {| order := LIFO; items := [2] |}).
Proof.
  split; [reflexivity|].
  apply (pop_takes_back_item_too 1 [2; 3]); [reflexivity|].
  intros y Hy. apply elem_of_cons in Hy as [->|Hy]; [reflexivity|].
  apply elem_of_cons in Hy as [->|Hy]; [reflexivity|]. by apply elem_of_nil in Hy.
Defined.

Lemma deleteByIndex_nonnegative_witness :
  0 <= 1 /\
  deleteByIndex 1 (push [10; 20; 30] fifo_stack) =
    (Some 20, {| order := FIFO; items := [10; 30] |}).
Proof.
  split; [lia|].
  exact (proj2 (deleteByIndex_nonnegative (push [10; 20; 30] fifo_stack) 1 ltac:(lia))).
Defined.

Lemma deleteByIndex_negative_witness :
  -1 < 0 /\
  getByIndex (-1) (push [10; 20; 30] fifo_stack) = None /\
  deleteByIndex (-1) (push [10; 20; 30] fifo_stack) =
    deleteByIndex 2 (push [10; 20; 30] fifo_stack).
Proof.
  split; [lia|].
  exact (deleteByIndex_negative (push [10; 20; 30] fifo_stack) (-1) ltac:(lia)).
Defined.
End StackMoreWitnesses.

(** ** The deferred promise, beyond the first settlement *)

Section DeferredMore.
Import Deferred.
Context `{Errors} {T : Type}.

Lemma calls_snoc (cs : list (Call T)) (c : Call T) (d : Deferred T) :
  calls (cs ++ [c]) d = call c (calls cs d).
Proof. unfold calls. by rewrite foldl_app. Qed.

Lemma settle_settled (to : PromiseState T) (p : PromiseState T) :
  p <> Pending -> settle to p = p.
Proof. by destruct p. Qed.

Lemma call_promise_settled (c : Call T) (d : Deferred T) :
  promise d <> Pending -> promise (call c d) = promise d.
Proof. intros Hp. destruct c; simpl; by apply settle_settled. Qed.

Lemma call_settles (c : Call T) (d : Deferred T) : promise (call c d) <> Pending.
Proof. destruct c; simpl; unfold settle; by destruct (promise d). Qed.

(** X9.  Over any sequence of calls of [resolve], [reject] and [cancel] on
    a new deferred, the promise keeps what the first call gave it, while
    [_outcome], and with it [isResolved], [isRejected] and [value], is what
    the last call wrote: after [resolve(v)] then [reject(e)] the promise is
    fulfilled with [v], yet [isRejected] holds and [value] is [undefined]. *)
Theorem promise_first_outcome_last (first last : Call T) (between : list (Call T)) :
  let d := calls (first :: between ++ [last]) new in
  promise d = promise (call first new) /\
  _outcome d = _outcome (call last new) /\
  isResolved d = isResolved (call last new) /\
  isRejected d = isRejected (call last new) /\
  get_value d = get_value (call last new).
Proof.
  intros d.
  assert (promise d = promise (call first new)) as Hp.
  { subst d. change (first :: between ++ [last]) with ([first] ++ (between ++ [last])).
    unfold calls. rewrite foldl_app. simpl foldl at 2.
    generalize (call_settles first new). generalize (call first new).
    induction (between ++ [last]) as [|c cs IH]; intros d0 Hd0; [done|].
    simpl. rewrite IH by apply call_settles. by apply call_promise_settled. }
  assert (_outcome d = _outcome (call last new)) as Ho.
  { subst d. rewrite app_comm_cons, calls_snoc. by destruct last. }
  split_and!; try done; unfold isResolved, isRejected, get_value; by rewrite Ho.
Qed.

End DeferredMore.

(** ** The event object *)

Section EventObject.
Import Event.

Lemma method_keeps (m : Method) (ev : Event) :
  _isDelivered ev = false ->
  _isDelivered (snd (method m ev)) = false /\
  cancelable (snd (method m ev)) = cancelable ev /\
  _callbacks (snd (method m ev)) = _callbacks ev /\
  (forall name, name = _propagate \/ name = _stopPropagation ->
     times name (snd (method m ev)) = times name ev).
Proof.
  intros Hd. destruct m; simpl.
  - unfold preventDefault. destruct (_isDefaultPrevented ev); [done|].
    unfold mbind, M_bind, optional_call, modify.
    destruct (_callbacks ev _propagateEnd) as [[|err]|]; simpl; split_and!; try done;
      intros name [-> | ->]; unfold times; simpl; by rewrite filter_app, length_app.
  - unfold stopPropagation. by rewrite Hd.
  - unfold cancel. destruct (cancelable ev) eqn:Hc; [|by rewrite ?Hc].
    unfold mbind, M_bind, optional_call, modify. simpl.
    destruct (_callbacks ev _cancel) as [[|err]|]; simpl; split_and!; try done;
      intros name [-> | ->]; unfold times; simpl; by rewrite filter_app, length_app.
Qed.

Lemma methods_keep (ms : list Method) (ev : Event) :
  _isDelivered ev = false ->
  _isDelivered (methods ms ev) = false /\
  times _stopPropagation (methods ms ev) = times _stopPropagation ev /\
  times _propagate (methods ms ev) = times _propagate ev.
Proof.
  revert ev. induction ms as [|m ms IH]; intros ev Hd; [done|].
  destruct (method_keeps m ev Hd) as (Hd' & _ & _ & Ht).
  change (methods (m :: ms) ev) with (methods ms (snd (method m ev))).
  destruct (IH _ Hd') as (-> & -> & ->).
  rewrite !Ht by auto. done.
Qed.

(** X10.  [stopPropagation] never does anything: it returns at once unless
    the event is delivered, and nothing but [stopPropagation] itself marks
    an event delivered.  So whatever methods are called on a new event, in
    whatever order, [isDelivered] stays false and neither
    [onPropagationStopped] nor [onPropagate] is ever called. *)
Theorem stopPropagation_never_acts (type' : string) (data : value)
    (options : option EventOptions) (now : Z) (ms : list Method) :
  let ev := methods ms (new type' data options now) in
  isDelivered ev = false /\ times _stopPropagation ev = 0%nat /\
  times _propagate ev = 0%nat.
Proof.
  simpl. unfold isDelivered.
  destruct (methods_keep ms (new type' data options now) eq_refl) as (-> & -> & ->).
  done.
Qed.

Lemma methods_snoc (ms : list Method) (m : Method) (ev : Event) :
  methods (ms ++ [m]) ev = snd (method m (methods ms ev)).
Proof. unfold methods. by rewrite foldl_app. Qed.

Local Ltac tally Hpe Hca c :=
  simpl; split_and!; try done; unfold times in *; simpl;
  rewrite ?filter_app, ?length_app; simpl; rewrite ?Hpe, ?Hca;
  try destruct c; simpl; try done; try lia.

Lemma callbacks_called_from (ev0 : Event) (ms : list Method) :
  (forall name err, _callbacks ev0 name <> Some (Throws err)) ->
  _isDelivered ev0 = false -> _isDefaultPrevented ev0 = false ->
  _isCancelled ev0 = false -> called ev0 = [] ->
  cancelable (methods ms ev0) = cancelable ev0 /\
  _callbacks (methods ms ev0) = _callbacks ev0 /\
  times _propagateEnd (methods ms ev0) =
    (registered _propagateEnd ev0 *
     if bool_decide (PreventDefault ∈ ms) then 1 else 0)%nat /\
  _isDefaultPrevented (methods ms ev0) = bool_decide (PreventDefault ∈ ms) /\
  times _cancel (methods ms ev0) =
    (registered _cancel ev0 *
     if cancelable ev0 then length (filter (fun m => m = Cancel) ms) else 0)%nat /\
  _isCancelled (methods ms ev0) = cancelable ev0 && bool_decide (Cancel ∈ ms).
Proof.
  intros Hret Hdel0 Hdp0 Hic0 Hcalled0.
  induction ms as [|m ms IH] using rev_ind.
  - assert (forall m', bool_decide (m' ∈ @nil Method) = false) as Hnil
      by (intros m'; apply bool_decide_eq_false_2, not_elem_of_nil).
    rewrite !Hnil, andb_false_r. unfold times. simpl. rewrite Hcalled0. simpl.
    split_and!; try done; try lia. destruct (cancelable ev0); lia.
  - destruct IH as (Hc & Hcb & Hpe & Hdp & Hca & Hic).
    rewrite methods_snoc. rewrite filter_app, length_app.
    assert (forall m', bool_decide (m' ∈ ms ++ [m]) =
                       bool_decide (m' ∈ ms) || bool_decide (m' = m)) as Hin.
    { intros m'. rewrite <- bool_decide_or. apply bool_decide_ext.
      by rewrite elem_of_app, list_elem_of_singleton. }
    rewrite !Hin. clear Hin.
    destruct m.
    + (* preventDefault *)
      rewrite (bool_decide_eq_true_2 (PreventDefault = PreventDefault)) by done.
      rewrite (bool_decide_eq_false_2 (Cancel = PreventDefault)) by done.
      rewrite orb_true_r, orb_false_r.
      simpl. unfold preventDefault. rewrite Hdp.
      destruct (bool_decide (PreventDefault ∈ ms)) eqn:Hm.
      * tally Hpe Hca (cancelable ev0).
      * unfold mbind, M_bind, optional_call, modify. rewrite Hcb.
        unfold registered in *.
        destruct (_callbacks ev0 _propagateEnd) as [[|err]|] eqn:Hcall.
        -- tally Hpe Hca (cancelable ev0).
        -- by destruct (Hret _propagateEnd err).
        -- tally Hpe Hca (cancelable ev0).
    + (* stopPropagation *)
      rewrite (bool_decide_eq_false_2 (PreventDefault = StopPropagation)) by done.
      rewrite (bool_decide_eq_false_2 (Cancel = StopPropagation)) by done.
      rewrite !orb_false_r.
      destruct (methods_keep ms ev0 Hdel0) as [Hd _].
      simpl. unfold stopPropagation. rewrite Hd.
      tally Hpe Hca (cancelable ev0).
    + (* cancel *)
      rewrite (bool_decide_eq_false_2 (PreventDefault = Cancel)) by done.
      rewrite (bool_decide_eq_true_2 (Cancel = Cancel)) by done.
      rewrite orb_true_r, orb_false_r.
      simpl. unfold cancel. rewrite Hc.
      destruct (cancelable ev0) eqn:Hcan; simpl.
      * unfold mbind, M_bind, optional_call, modify. rewrite Hcb.
        unfold registered in *.
        destruct (_callbacks ev0 _cancel) as [[|err]|] eqn:Hcall.
        -- tally Hpe Hca true.
        -- by destruct (Hret _cancel err).
        -- tally Hpe Hca true.
      * tally Hpe Hca true.
Qed.

(** X11.  When the callbacks return, [onDefaultPrevented] is called by the
    first [preventDefault] and by no later one, while [onCancel] is called
    by every [cancel] on a cancelable event, not only by the first, and by
    none on an event that is not cancelable. *)
Theorem callbacks_called (type' : string) (data : value)
    (options : option EventOptions) (now : Z) (ms : list Method) :
  (forall name err, _callbacks (new type' data options now) name <> Some (Throws err)) ->
  let ev0 := new type' data options now in
  let ev := methods ms ev0 in
  times _propagateEnd ev =
    (registered _propagateEnd ev0 * if bool_decide (PreventDefault ∈ ms) then 1 else 0)%nat /\
  isDefaultPrevented ev = bool_decide (PreventDefault ∈ ms) /\
  times _cancel ev =
    (registered _cancel ev0 *
     if cancelable ev0 then length (filter (fun m => m = Cancel) ms) else 0)%nat /\
  isCancelled ev = cancelable ev0 && bool_decide (Cancel ∈ ms).
Proof.
  intros Hret ev0 ev.
  destruct (callbacks_called_from ev0 ms Hret eq_refl eq_refl eq_refl eq_refl)
    as (_ & _ & ? & ? & ? & ?).
  done.
Qed.
End EventObject.

Section EventObjectWitnesses.
Import Event.

Lemma callbacks_called_witness :
  let options := Some {| opt_cancelable := Some true; onCancel := Some Returns;
                         onPropagate := None; onPropagationStopped := None;
                         onDefaultPrevented := Some Returns |} in
  let ev := methods [Cancel; PreventDefault; Cancel; PreventDefault]
              (new "change" VNull options 0) in
  times _propagateEnd ev = 1%nat /\ isDefaultPrevented ev = true /\
  times _cancel ev = 2%nat /\ isCancelled ev = true.
Proof.
  intros options ev.
  apply (callbacks_called "change" VNull options 0
           [Cancel; PreventDefault; Cancel; PreventDefault]).
  intros name err. destruct name; simpl; discriminate.
Defined.
End EventObjectWitnesses.

(** ** The emitter, beyond [emit] *)

Section EmitterMore.
Import Array Events.
Context `{Hash}.

Lemma unsubscribe_keeps (r : nat) (sig : string) (e : EventEmitter) :
  _disposed (unsubscribe r sig e) = _disposed e /\
  delivered (unsubscribe r sig e) = delivered e /\
  _listeners (unsubscribe r sig e) = _listeners e.
Proof. unfold unsubscribe. by case_match. Qed.

Lemma dispose_subscription_keeps (r : nat) (sig : string) (e : EventEmitter) :
  _disposed (dispose_subscription r sig e) = _disposed e /\
  delivered (dispose_subscription r sig e) = delivered e /\
  _listeners (dispose_subscription r sig e) = _listeners e.
Proof. unfold dispose_subscription. repeat case_match; done. Qed.

Lemma op_disposed (o : Op) (e : EventEmitter) :
  _disposed e = true ->
  _disposed (snd (op o e)) = true /\ delivered (snd (op o e)) = delivered e.
Proof.
  intros Hd. destruct o; simpl;
    unfold subscribe, emit, fire, getSubscription, getListeners, removeListeners,
      removeListener, dispose; rewrite ?Hd; simpl; try done.
  - unfold handle_unsubscribe.
    destruct (unsubscribe_keeps (handle_array h) (handle_signature h) e) as (-> & -> & _).
    done.
  - unfold handle_dispose.
    destruct (dispose_subscription_keeps (handle_array h) (handle_signature h) e)
      as (-> & -> & _).
    done.
Qed.

Lemma ops_disposed (os : list Op) (e : EventEmitter) :
  _disposed e = true ->
  _disposed (ops os e) = true /\ delivered (ops os e) = delivered e.
Proof.
  revert e. induction os as [|o os IH]; intros e Hd; [done|].
  destruct (op_disposed o e Hd) as [Hd' Hdel].
  change (ops (o :: os) e) with (ops os (snd (op o e))).
  destruct (IH _ Hd') as [-> ->]. done.
Qed.

(** X12.  Once [dispose] has been called, whatever the client calls
    afterwards on the emitter or on the handles it holds, no listener is
    called again, and [subscribe], [emit], [fire], [getSubscription],
    [getListeners], [removeListeners] and [removeListener] all throw the
    exception [EventEmitter has been disposed] and change nothing; [dispose]
    itself returns. *)
Theorem disposed_emitter_is_inert (e0 : EventEmitter) (os : list Op) :
  let e := ops os (snd (dispose e0)) in
  delivered e = delivered e0 /\
  (forall event listener' thisArgs' options,
     subscribe event listener' thisArgs' options e = (Throw disposed_error, e)) /\
  (forall event args, emit event args e = (Throw disposed_error, e)) /\
  (forall event data, fire event data e = (Throw disposed_error, e)) /\
  (forall event listener', getSubscription event listener' e = (Throw disposed_error, e)) /\
  (forall event, getListeners event e = (Throw disposed_error, e)) /\
  removeListeners e = (Throw disposed_error, e) /\
  (forall event listener', removeListener event listener' e = (Throw disposed_error, e)) /\
  dispose e = (Normal tt, e).
Proof.
  intros e.
  assert (_disposed (snd (dispose e0)) = true /\
          delivered (snd (dispose e0)) = delivered e0) as [Hd0 Hdel0].
  { unfold dispose. destruct (_disposed e0) eqn:Hd; done. }
  destruct (ops_disposed os _ Hd0) as [Hd Hdel]. fold e in Hd, Hdel.
  split; [congruence|].
  unfold subscribe, emit, fire, getSubscription, getListeners, removeListeners,
    removeListener, dispose.
  rewrite Hd. done.
Qed.
(** The subscription object that [subscribe] creates. *)
Lemma subscribe_fresh (event : string) (listener' : Listener) (thisArgs' : value)
    (options : option EventSubscribeOptions) (e : EventEmitter) :
  _disposed e = false -> _listeners e !! event = None ->
  subscribe event listener' thisArgs' options e =
    (Normal {| handle_array := length (arrays e);
               handle_signature := sha256 (toString listener') |},
     {| _size := _size e + 1; _disposed := false;
        _listeners := <[event := length (arrays e)]> (_listeners e);
        arrays := arrays e ++
          [[ {| listener := listener'; thisArgs := thisArgs';
                listenerSignature := sha256 (toString listener');
                subscriptionId := uuids e;
                once := match options ≫= opt_once with Some b => b | None => false end;
                calls := 0; isDisposed := false; eventName := event;
                previousListeners := length (arrays e) |} ]];
        uuids := S (uuids e); delivered := delivered e; reported := reported e |}).
Proof.
  intros Hd Hnone. unfold subscribe. rewrite Hd, Hnone. cbn [_listeners set_listeners].
  rewrite lookup_insert_eq. cbn [default].
  unfold set_size, set_arrays, set_uuids, set_listeners, array. simpl.
  rewrite lookup_app_r, Nat.sub_diag by lia. simpl.
  rewrite insert_app_r_alt, Nat.sub_diag by lia. simpl.
  by rewrite Hd.
Qed.
Lemma unsubscribe_head (r : nat) (sig : string) (s : ListenerSubscription)
    (rest : list ListenerSubscription) (e : EventEmitter) :
  arrays e !! r = Some (s :: rest) -> listenerSignature s = sig ->
  unsubscribe r sig e = set_size (_size e - 1) (set_arrays (<[r := rest]> (arrays e)) e).
Proof.
  intros Ha <-. unfold unsubscribe, array. rewrite Ha. cbn [default]. unfold id.
  unfold Array.findIndex. cbn [findIndex_from]. cbv beta. rewrite String.eqb_refl.
  change (-1 <? 0) with true. cbv iota. by rewrite splice1_first.
Qed.

(** X13.  [_size] miscounts removals.  After a listener has subscribed to
    an event that had no entry, [removeListener(event, listener)] removes it
    and lowers [_size] by two, once in [unsubscribe] and once more in the
    loop, while [removeListener(event)] removes it and leaves [_size] as it
    was. *)
Theorem removeListener_miscounts (event : string) (listener' : Listener)
    (thisArgs' : value) (options : option EventSubscribeOptions) (e : EventEmitter) :
  _disposed e = false -> _listeners e !! event = None ->
  let e1 := snd (subscribe event listener' thisArgs' options e) in
  let e2 := snd (removeListener event (Some listener') e1) in
  let e3 := snd (removeListener event None e1) in
  _size e1 = _size e + 1 /\
  fst (getListeners event e2) = Normal [] /\ _size e2 = _size e - 1 /\
  fst (getListeners event e3) = Normal [] /\ _size e3 = _size e + 1.
Proof.
  intros Hd Hnone e1 e2 e3. subst e2 e3 e1. rewrite subscribe_fresh by done.
  cbn [snd].
  match goal with |- context [arrays e ++ [[?x]]] => set (self := x) end.
  match goal with |- context [_size ?x = _size e + 1] => set (e1 := x) end.
  assert (_disposed e1 = false) as Hd1 by done.
  assert (_size e1 = _size e + 1) as Hs1 by done.
  assert (_listeners e1 !! event = Some (length (arrays e))) as Hl1
    by apply lookup_insert_eq.
  assert (arrays e1 !! length (arrays e) = Some [self]) as Ha1.
  { subst e1. cbn [arrays]. by rewrite lookup_app_r, Nat.sub_diag by lia. }
  assert (array (length (arrays e)) e1 = [self]) as Harr1
    by (unfold array; by rewrite Ha1).
  unfold removeListener. rewrite Hd1, Hl1, Harr1.
  cbn [List.find]. change (listenerSignature self) with (sha256 (toString listener')).
  rewrite String.eqb_refl.
  change (previousListeners self) with (length (arrays e)).
  rewrite (unsubscribe_head _ _ self [] e1 Ha1 eq_refl).
  unfold getListeners. cbn [snd fst set_size set_arrays set_listeners _size _disposed
    _listeners arrays]. rewrite Hd1, Hl1, Hs1, lookup_delete_eq.
  unfold array, set_size, set_arrays. cbn [arrays fst].
  rewrite list_lookup_insert_eq by (by eapply lookup_lt_Some).
  split_and!; try done; lia.
Qed.
Lemma subscribe_existing (event : string) (listener' : Listener) (thisArgs' : value)
    (options : option EventSubscribeOptions) (e : EventEmitter) (r : nat)
    (subscriptions : list ListenerSubscription) :
  _disposed e = false -> _listeners e !! event = Some r ->
  arrays e !! r = Some subscriptions ->
  subscribe event listener' thisArgs' options e =
    (Normal {| handle_array := r; handle_signature := sha256 (toString listener') |},
     {| _size := _size e + 1; _disposed := false; _listeners := _listeners e;
        arrays := <[r := subscriptions ++
          [ {| listener := listener'; thisArgs := thisArgs';
               listenerSignature := sha256 (toString listener');
               subscriptionId := uuids e;
               once := match options ≫= opt_once with Some b => b | None => false end;
               calls := 0; isDisposed := false; eventName := event;
               previousListeners := r |} ]]> (arrays e);
        uuids := S (uuids e); delivered := delivered e; reported := reported e |}).
Proof.
  intros Hd Hsome Ha. unfold subscribe. rewrite Hd, Hsome. cbn [default]. unfold id.
  rewrite Hsome. cbn [default]. unfold id.
  unfold set_size, set_arrays, set_uuids, array. simpl. rewrite Ha. simpl.
  by rewrite Hd.
Qed.




(** X15.  A handle outlives [removeListeners]: its [unsubscribe] still
    finds the subscription in the array it closed over and lowers [_size],
    which [removeListeners] had already set to 0.  [_size] is then negative,
    and after the next [subscribe] [hasListeners] answers false although
    [emit] calls the new listener. *)
Theorem hasListeners_false_with_listener (event : string) (listener' : Listener)
    (thisArgs' : value) (options : option EventSubscribeOptions)
    (event2 : string) (listener2 : Listener) (thisArgs2 : value)
    (options2 : option EventSubscribeOptions) (args : list value) (h : Handle) :
  fst (subscribe event listener' thisArgs' options new) = Normal h ->
  let e3 := ops [OpSubscribe event listener' thisArgs' options; OpRemoveListeners;
                 OpHandleUnsubscribe h] new in
  let e4 := ops [OpSubscribe event2 listener2 thisArgs2 options2] e3 in
  _size e3 = -1 /\ hasListeners e4 = false /\
  delivered (snd (emit event2 args e4)) = [(1%nat, args)].
Proof.
  intros Hh e3 e4. rewrite subscribe_fresh in Hh by done. cbn [fst] in Hh.
  injection Hh as Hh. subst h.
  set (self := {| listener := listener'; thisArgs := thisArgs';
                  listenerSignature := sha256 (toString listener');
                  subscriptionId := 0;
                  once := match options ≫= opt_once with Some b => b | None => false end;
                  calls := 0; isDisposed := false;
                  eventName := event; previousListeners := 0 |}).
  assert (e3 = {| _size := -1; _disposed := false; _listeners := ∅; arrays := [[]];
                  uuids := 1; delivered := []; reported := [] |}) as H3.
  { subst e3. unfold ops. cbn [foldl op]. rewrite subscribe_fresh by done.
    cbn [snd removeListeners]. unfold removeListeners. cbn [_disposed snd].
    unfold handle_unsubscribe. cbn [handle_array handle_signature arrays new length].
    etrans; [apply (unsubscribe_head 0 _ self []); reflexivity|]. done. }
  assert (_size e4 = 0 /\ _disposed e4 = false /\ _listeners e4 !! event2 = Some 1%nat /\
          delivered e4 = [] /\
          exists subscription, arrays e4 !! 1%nat = Some [subscription] /\
            isDisposed subscription = false /\ calls subscription = 0 /\
            subscriptionId subscription = 1%nat) as (Hs4 & Hd4 & Hl4 & Hdel4 & sub & Ha4 & Hdis & Hc & Hid).
  { subst e4. rewrite H3. unfold ops. cbn [foldl op].
    rewrite subscribe_fresh by done. cbn [snd _size _disposed _listeners arrays delivered].
    split_and!; try done; [apply lookup_insert_eq|]. eexists. split; [reflexivity|]. done. }
  split_and!.
  - by rewrite H3.
  - unfold hasListeners. by rewrite Hs4.
  - rewrite (emit_single_listener event2 args e4 1 sub); try done.
    + by rewrite Hdel4, Hid.
    + rewrite Hc. apply andb_false_r.
Qed.

(** X16.  Subscriptions are told apart by the hash of the listener's source
    text alone.  When two listeners with the same text subscribe to an event
    of a new emitter, [getSubscription] with the second finds the
    subscription of the first, and the [unsubscribe] of the second handle
    removes the first listener and leaves the second one subscribed. *)
Theorem same_text_listeners_collide (event : string) (listener1 listener2 : Listener)
    (thisArgs1 thisArgs2 : value) (options1 options2 : option EventSubscribeOptions)
    (h2 : Handle) :
  toString listener1 = toString listener2 ->
  let e1 := snd (subscribe event listener1 thisArgs1 options1 new) in
  let e2 := snd (subscribe event listener2 thisArgs2 options2 e1) in
  fst (subscribe event listener2 thisArgs2 options2 e1) = Normal h2 ->
  (exists subscription,
     fst (getSubscription event listener2 e2) = Normal (Some subscription) /\
     listener subscription = listener1 /\ subscriptionId subscription = 0%nat) /\
  (exists subscription,
     fst (getListeners event (handle_unsubscribe h2 e2)) = Normal [subscription] /\
     listener subscription = listener2 /\ subscriptionId subscription = 1%nat).
Proof.
  intros Htext e1 e2. subst e2 e1.
  rewrite (subscribe_fresh event listener1 thisArgs1 options1 new) by done. cbn [snd].
  match goal with |- context [subscribe _ _ _ _ ?x] => set (e1 := x) end.
  assert (_listeners e1 !! event = Some 0%nat) as Hl1 by apply lookup_insert_eq.
  rewrite (subscribe_existing event listener2 thisArgs2 options2 e1 0 _ eq_refl Hl1 eq_refl).
  cbn [fst snd]. intros [= <-].
  match goal with |- context [getSubscription _ _ ?x] => set (e2 := x) end.
  assert (_listeners e2 !! event = Some 0%nat) as Hl2 by apply lookup_insert_eq.
  split.
  - eexists. unfold getSubscription, array. rewrite Hl2. subst e2 e1. simpl.
    rewrite Htext, String.eqb_refl. split; [reflexivity|]. done.
  - unfold handle_unsubscribe. cbn [handle_array handle_signature].
    erewrite unsubscribe_head; [| reflexivity | cbn [listenerSignature]; by rewrite Htext].
    unfold getListeners, array.
    cbn [_disposed set_size set_arrays _listeners fst e2]. fold e1. rewrite Hl1.
    subst e2 e1. simpl. eexists. split; [reflexivity|]. done.
Qed.
Lemma fire_loop_keeps (fuel : nat) (data : value) (i : nat)
    (listeners : list ListenerSubscription) (e : EventEmitter) :
  _listeners (fire_loop fuel data i listeners e) = _listeners e /\
  _disposed (fire_loop fuel data i listeners e) = _disposed e.
Proof.
  revert i listeners e. induction fuel as [|fuel IH]; intros i listeners e; [done|].
  cbn [fire_loop]. destruct (listeners !! i) as [subscription|]; [|done].
  destruct (isDisposed subscription); [apply IH|].
  destruct (once subscription && (0 <? calls subscription)).
  { destruct (IH (S i) listeners (unsubscribe (previousListeners subscription)
      (listenerSignature subscription) e)) as [-> ->].
    destruct (unsubscribe_keeps (previousListeners subscription)
      (listenerSignature subscription) e) as (-> & _ & ->). done. }
  cbv zeta. match goal with |- context [fire_loop fuel data (S i) ?l ?x] =>
    destruct (IH (S i) l x) as [-> ->] end.
  by destruct (call (listener subscription) [data]).
Qed.

Lemma fire_returns (event : string) (data : value) (e : EventEmitter) :
  _disposed e = false ->
  exists e', fire event data e = (Normal tt, e') /\
    _listeners e' = delete event (_listeners e) /\
    fst (getListeners event e') = Normal [] /\ _disposed e' = false.
Proof.
  intros Hd. unfold fire. rewrite Hd. cbv zeta.
  destruct (fire_loop_keeps (length (flat e)) data 0 (flat e) e) as [Hl Hd'].
  set (e1 := fire_loop (length (flat e)) data 0 (flat e) e) in *.
  rewrite Hd in Hd'. unfold removeListener. rewrite Hd'.
  destruct (_listeners e1 !! event) as [r|] eqn:Hr.
  - eexists. split; [reflexivity|]. unfold getListeners.
    cbn [_listeners _disposed set_listeners fst]. rewrite Hd', lookup_delete_eq, Hl. done.
  - exists e1. split; [done|]. unfold getListeners. rewrite Hd', Hr.
    rewrite <- Hl, delete_id by done. done.
Qed.


Lemma fire_loop_single (data : value) (subscription : ListenerSubscription)
    (e : EventEmitter) :
  isDisposed subscription = false ->
  once subscription && (0 <? calls subscription) = false ->
  let e' := fire_loop 1 data 0 [subscription] e in
  delivered e' = delivered e ++ [(subscriptionId subscription, [data])] /\
  _size e' = _size e.
Proof.
  intros Hdis Honce. cbn [fire_loop lookup list_lookup]. rewrite Hdis, Honce.
  cbv zeta. by destruct (call (listener subscription) [data]).
Qed.

(** X18.  [fire] does not look at the event name when it picks the
    listeners to call.  With one listener subscribed to [event1] on a new
    emitter, [fire(event2, data)] calls that listener with [data] for every
    [event2], equal to [event1] or not; [_size] is not lowered, so
    [hasListeners] stays true also when the entry of the listener was the
    one deleted. *)
Theorem fire_calls_listeners_of_every_event (event1 event2 : string)
    (listener' : Listener) (thisArgs' : value) (options : option EventSubscribeOptions)
    (data : value) :
  let e := snd (subscribe event1 listener' thisArgs' options new) in
  let e' := snd (fire event2 data e) in
  delivered e' = [(0%nat, [data])] /\ hasListeners e' = true /\
  fst (getListeners event2 e') = Normal [].
Proof.
  intros e e'. subst e' e. rewrite subscribe_fresh by done. cbn [snd].
  match goal with |- context [arrays new ++ [[?x]]] => set (self := x) end.
  match goal with |- context [fire _ _ ?x] => set (e1 := x) end.
  assert (flat e1 = [self]) as Hflat.
  { unfold flat, values. subst e1. cbn [_listeners arrays new app length seq].
    rewrite insert_empty, map_to_list_singleton. cbn. by rewrite ?app_nil_r. }
  destruct (fire_returns event2 data e1 eq_refl) as (e2 & Hfire & Hl2 & Hget & Hd2).
  rewrite Hfire. cbn [snd].
  destruct (fire_loop_single data self e1 eq_refl (andb_false_r _)) as [Hdel Hsize].
  set (e3 := fire_loop 1 data 0 [self] e1) in *.
  assert (delivered e2 = delivered e3 /\ _size e2 = _size e3) as [-> Hs].
  { revert Hfire. unfold fire. cbn [_disposed e1]. cbv zeta. rewrite Hflat.
    cbn [length]. unfold removeListener. fold e3.
    destruct (_disposed e3); [|destruct (_listeners e3 !! event2)]; by intros [= <-]. }
  unfold hasListeners. rewrite Hs, Hsize, Hdel. done.
Qed.
End EmitterMore.

Section EmitterMoreWitnesses.
Import Events Samples.

Lemma removeListener_miscounts_witness :
  let e1 := snd (subscribe (H := text_signature) "tick" (quiet "() => first()")
                   VUndefined None new) in
  _size e1 = 1 /\
  _size (snd (removeListener (H := text_signature) "tick"
                (Some (quiet "() => first()")) e1)) = -1 /\
  _size (snd (removeListener (H := text_signature) "tick" None e1)) = 1.
Proof.
  destruct (removeListener_miscounts (H := text_signature) "tick"
              (quiet "() => first()") VUndefined None new eq_refl eq_refl)
    as (H1 & _ & H2 & _ & H3).
  exact (conj H1 (conj H2 H3)).
Defined.

Lemma hasListeners_false_with_listener_witness :
  let h := {| handle_array := 0; handle_signature := "() => first()" |} in
  let e3 := ops (H := text_signature)
              [OpSubscribe "tick" (quiet "() => first()") VUndefined None;
               OpRemoveListeners; OpHandleUnsubscribe h] new in
  let e4 := ops (H := text_signature)
              [OpSubscribe "tock" (quiet "() => second()") VUndefined None] e3 in
  _size e3 = -1 /\ hasListeners e4 = false /\
  delivered (snd (emit "tock" [VNumber 1] e4)) = [(1%nat, [VNumber 1])].
Proof.
  intros h.
  exact (hasListeners_false_with_listener (H := text_signature) "tick"
    (quiet "() => first()") VUndefined None "tock" (quiet "() => second()") VUndefined
    None [VNumber 1] h eq_refl).
Defined.

Lemma same_text_listeners_collide_witness :
  let make := quiet "() => count()" in
  let e1 := snd (subscribe (H := text_signature) "tick" make VUndefined None new) in
  let e2 := snd (subscribe (H := text_signature) "tick" make (VNumber 2) None e1) in
  let h2 := {| handle_array := 0; handle_signature := "() => count()" |} in
  exists subscription,
    fst (getListeners "tick" (handle_unsubscribe h2 e2)) =
      Normal [subscription] /\
    listener subscription = make /\ subscriptionId subscription = 1%nat.
Proof.
  intros make e1 e2 h2.
  exact (proj2 (same_text_listeners_collide (H := text_signature) "tick" make make
    VUndefined (VNumber 2) None None h2 eq_refl eq_refl)).
Defined.

End EmitterMoreWitnesses.

(** ** The runners, beyond [promiseConcurrency] with [K < N] *)

Section RunnerMore.
Import Concurrently Deferred.

(** X19.  [mapPromises(args, callback, K)] with [K >= 1], whatever the
    number of arguments: never more than [K] callbacks are in flight; when
    the aggregate promise is fulfilled every callback has settled and the
    array it carries holds, at the index of each argument, the entry of the
    callback on that argument; each step lowers [measure], and a state from
    which no step is left has the promise fulfilled when every callback
    settles. *)
Theorem mapPromises_bounded_in_order {Args} (args : list Args) (callback : Args -> Work)
    (K : Z) (r : Runner) :
  1 <= K ->
  reachable (mapPromises args callback K) r ->
  Z.of_nat (length (inflight r)) <= K /\
  (forall res, promise (deferred r) = Fulfilled res ->
      settled r = Z.of_nat (length args) /\
      inflight r = [] /\
      length res = length args /\
      forall i a, args !! i = Some a ->
        exists entry, entry_of (callback a) = Some entry /\
                      res !! i = Some (Some entry)) /\
  (forall r', step r r' -> 0 <= measure r' < measure r) /\
  ((forall a, a ∈ args -> callback a <> StaysPending) ->
   (forall r', ~ step r r') ->
   exists res, promise (deferred r) = Fulfilled res).
Proof.
  intros HK Hreach.
  pose proof (inv_mapPromises args callback K) as Hinv0.
  pose proof (inv_reachable _ _ _ Hinv0 Hreach) as Hinv.
  assert (works r = map callback args) as Hworks.
  { rewrite (works_reachable _ _ Hreach). unfold mapPromises. by rewrite works_launch. }
  split_and!.
  - pose proof (inv_slots _ _ Hinv). lia.
  - intros res Hres.
    destruct (inv_fulfilled _ _ _ Hinv Hres) as (Hs & Hnil & _ & Hlen & Hall).
    unfold total in Hs. rewrite Hworks, length_map in Hs, Hlen.
    split_and!; try done.
    intros i a Hi. apply (Hall i (callback a)).
    by rewrite Hworks, list_lookup_fmap, Hi.
  - intros r'. apply (measure_step _ _ _ Hinv).
  - intros Hall Hstuck.
    assert (live r) as Hlive.
    { eapply live_reachable; [apply Hinv0| |done].
      unfold mapPromises. apply live_launch_pos. lia. }
    destruct Hlive as [Hres|[Himm|Hfl]]; [done| |].
    + exfalso. eapply Hstuck. by eapply step_immediate.
    + exfalso. destruct (inflight r) as [|index l] eqn:E; [done|].
      assert (index ∈ inflight r) as Hin by (rewrite E; left).
      pose proof (inv_claimed _ _ Hinv index Hin) as Hlt.
      pose proof (inv_cursor _ _ Hinv) as Hcur. unfold total in Hcur.
      destruct (lookup_lt_is_Some_2 (works r) index) as [w Hw]; [lia|].
      assert (exists entry, entry_of w = Some entry) as [entry He].
      { rewrite Hworks, list_lookup_fmap in Hw.
        destruct (args !! index) as [a|] eqn:Hc; [|done].
        injection Hw as <-. apply list_elem_of_lookup_2 in Hc. apply Hall in Hc.
        destruct (callback a); simpl; eauto. done. }
      eapply Hstuck. by eapply step_settle.
Qed.

(** X20.  One callback whose promise never settles keeps the aggregate
    promise of either runner pending for ever, whatever the other callbacks
    do and whatever the concurrency. *)
Theorem pending_callback_blocks {Args} (args : list Args) (callback : Args -> Work)
    (callbacks : list (unit -> Work)) (concurrency : Z) (ws : list Work) (r0 r : Runner) :
  (r0 = mapPromises args callback concurrency /\ ws = map callback args) \/
  (r0 = promiseConcurrency callbacks concurrency /\
   ws = map (fun callback => callback tt) callbacks) ->
  StaysPending ∈ ws ->
  reachable r0 r ->
  promise (deferred r) = Pending.
Proof.
  intros Hr0 Hin Hreach.
  assert (inv (Z.max concurrency 0) r0 /\ works r0 = ws) as [Hinv0 Hws].
  { destruct Hr0 as [[-> ->] | [-> ->]]; (split; [|apply works_launch]).
    - apply inv_mapPromises.
    - apply inv_promiseConcurrency. }
  pose proof (inv_reachable _ _ _ Hinv0 Hreach) as Hinv.
  pose proof (works_reachable _ _ Hreach) as Hworks. rewrite Hws in Hworks.
  destruct (inv_deferred _ _ Hinv) as [Hp|[_ Hp]]; [done|]. exfalso.
  destruct (inv_fulfilled _ _ _ Hinv Hp) as (_ & _ & _ & _ & Hall).
  apply list_elem_of_lookup_1 in Hin as [i Hi]. rewrite <- Hworks in Hi.
  by destruct (Hall i _ Hi) as (entry & He & _).
Qed.

Lemma launch_state (ws : list Work) (fuel : nat) :
  forall (r : Runner) (c : nat),
  works r = ws -> cursor r = Z.of_nat c -> (c <= length ws)%nat ->
  inflight r = seq 0 c -> settled r = 0 -> results r = [] -> immediates r = 0%nat ->
  promise (deferred r) = Pending \/ promise (deferred r) = Fulfilled [] ->
  let r' := launch fuel (Z.of_nat fuel) r in
  let n := ((c + fuel) `min` length ws)%nat in
  inflight r' = seq 0 n /\ cursor r' = Z.of_nat n /\ settled r' = 0 /\
  results r' = [] /\ immediates r' = 0%nat /\
  (ws = [] -> (1 <= fuel)%nat -> promise (deferred r') = Fulfilled []) /\
  (ws <> [] \/ fuel = 0%nat -> promise (deferred r') = promise (deferred r)).
Proof.
  induction fuel as [|fuel IH]; intros r c Hw Hc Hle Hfl Hs Hres Himm Hd.
  - simpl. rewrite Nat.add_0_r, Nat.min_l by lia. split_and!; try done. lia.
  - cbn [launch]. replace (Z.of_nat (S fuel) - 1) with (Z.of_nat fuel) by lia.
    assert ((0 <=? Z.of_nat fuel) = true) as -> by (apply Z.leb_le; lia).
    assert (next r =
      if Z.of_nat c <? Z.of_nat (length ws) then
        {| works := works r; cursor := cursor r + 1; settled := settled r;
           results := results r; deferred := deferred r;
           inflight := inflight r ++ [c]; immediates := immediates r |}
      else if 0 =? Z.of_nat (length ws) then
        {| works := works r; cursor := cursor r; settled := settled r;
           results := results r; deferred := Deferred.resolve (results r) (deferred r);
           inflight := inflight r; immediates := immediates r |}
      else r) as ->.
    { unfold next. rewrite Hw, Hc, Hs. by replace (Z.to_nat (Z.of_nat c)) with c by lia. }
    destruct (Z.of_nat c <? Z.of_nat (length ws)) eqn:Hlt.
    + apply Z.ltb_lt in Hlt.
      assert (ws <> []) as Hne by (intros ->; simpl in *; lia).
      match goal with |- context [launch fuel _ ?x] =>
        destruct (IH x (S c)) as (H1 & H2 & H3 & H4 & H5 & H6 & H7) end;
        cbn [works cursor inflight settled results immediates deferred];
        try done; try lia.
      { rewrite Hfl. by rewrite seq_S. }
      replace (c + S fuel)%nat with (S c + fuel)%nat by lia.
      split_and!; try done. intros _. by rewrite H7 by auto.
    + apply Z.ltb_ge in Hlt. assert (c = length ws) as Hc' by lia.
      destruct (0 =? Z.of_nat (length ws)) eqn:Hz.
      * apply Z.eqb_eq in Hz.
        assert (ws = []) as Hnil by (destruct ws; [done|simpl in *; lia]).
        assert (promise (Deferred.resolve (results r) (deferred r)) = Fulfilled [])
          as Hp.
        { simpl. rewrite Hres. by destruct Hd as [-> | ->]. }
        match goal with |- context [launch fuel _ ?x] =>
          destruct (IH x c) as (H1 & H2 & H3 & H4 & H5 & H6 & H7) end;
          cbn [works cursor inflight settled results immediates deferred];
          try done; [by right|].
        replace ((c + S fuel) `min` length ws)%nat with ((c + fuel) `min` length ws)%nat
          by lia.
        split_and!; try done.
        -- intros _ _. destruct fuel as [|fuel]; [|apply H6; [done|lia]].
           rewrite H7 by auto. done.
        -- intros [Hne|Hf]; [done|lia].
      * apply Z.eqb_neq in Hz.
        assert (ws <> []) as Hne by (intros ->; simpl in *; lia).
        destruct (IH r c) as (H1 & H2 & H3 & H4 & H5 & H6 & H7); try done.
        replace ((c + S fuel) `min` length ws)%nat with ((c + fuel) `min` length ws)%nat
          by lia.
        split_and!; try done. intros _. apply H7. by left.
Qed.
(** X21.  When either runner returns, with [K >= 0] and [N] work items,
    the first [min(K, N)] callbacks have been called, in input order, and no
    other; nothing has settled yet.  The aggregate promise is pending,
    except for an empty input with [K >= 1], where it is already fulfilled
    with the empty array. *)
Theorem runners_start_in_order {Args} (args : list Args) (callback : Args -> Work)
    (callbacks : list (unit -> Work)) (K : Z) (ws : list Work) (r0 : Runner) :
  (r0 = mapPromises args callback K /\ ws = map callback args) \/
  (r0 = promiseConcurrency callbacks K /\
   ws = map (fun callback => callback tt) callbacks) ->
  0 <= K ->
  let n := (Z.to_nat K `min` length ws)%nat in
  inflight r0 = seq 0 n /\ cursor r0 = Z.of_nat n /\ settled r0 = 0 /\
  results r0 = [] /\ immediates r0 = 0%nat /\
  promise (deferred r0) =
    match ws with
    | [] => if 1 <=? K then Fulfilled [] else Pending
    | _ :: _ => Pending
    end.
Proof.
  intros Hr0 HK n.
  assert (r0 = launch (Z.to_nat K) (Z.of_nat (Z.to_nat K)) (init ws)) as ->.
  { rewrite Z2Nat.id by done. by destruct Hr0 as [[-> ->] | [-> ->]]. }
  destruct (launch_state ws (Z.to_nat K) (init ws) 0) as (H1 & H2 & H3 & H4 & H5 & H6 & H7);
    try done; [simpl; lia|by left|].
  rewrite Nat.add_0_l in *. fold n in H1, H2. split_and!; try done.
  destruct ws as [|w ws].
  - destruct (1 <=? K) eqn:E.
    + apply Z.leb_le in E. apply H6; [done|lia].
    + apply Z.leb_gt in E. rewrite H7; [done|]. right. lia.
  - by rewrite H7 by (by left).
Qed.
End RunnerMore.

Section RunnerMoreWitnesses.
Import Concurrently Deferred Samples.

Lemma mapPromises_bounded_in_order_witness :
  let r := mapPromises [1; 2] (fun n => Resolves (VNumber n)) 5 in
  1 <= 5 /\ reachable r r /\ Z.of_nat (length (inflight r)) <= 5.
Proof.
  intros r. split; [lia|]. split; [apply rtc_refl|].
  exact (proj1 (mapPromises_bounded_in_order [1; 2] (fun n => Resolves (VNumber n)) 5 r
     ltac:(lia) (rtc_refl _ _))).
Defined.

Lemma pending_callback_blocks_witness :
  let callbacks := [fun _ : unit => Resolves (VNumber 1); fun _ => StaysPending] in
  let r0 := promiseConcurrency callbacks 2 in
  let r := next (take_immediate (record 0 (fulfilled (VNumber 1)) r0)) in
  reachable r0 r /\ promise (deferred r) = Pending.
Proof.
  intros callbacks r0 r.
  assert (reachable r0 r) as Hreach.
  { unfold reachable. eapply rtc_l.
    { apply (step_settle _ 0%nat (Resolves (VNumber 1))); vm_compute; [set_solver|done..]. }
    eapply rtc_l. { apply step_immediate. vm_compute. lia. }
    apply rtc_refl. }
  split; [exact Hreach|].
  apply (pending_callback_blocks (Args := unit) [] (fun _ => StaysPending) callbacks 2
           (map (fun callback => callback tt) callbacks) r0 r
           (or_intror (conj eq_refl eq_refl))); [|exact Hreach].
  vm_compute. set_solver.
Defined.

Lemma runners_start_in_order_witness :
  0 <= 2 /\ inflight (promiseConcurrency demo_callbacks 2) = [0; 1]%nat /\
  cursor (promiseConcurrency demo_callbacks 2) = 2.
Proof.
  split; [lia|].
  destruct (runners_start_in_order (Args := unit) [] (fun _ => StaysPending) demo_callbacks 2
              (map (fun callback => callback tt) demo_callbacks)
              (promiseConcurrency demo_callbacks 2)
              (or_intror (conj eq_refl eq_refl)) ltac:(lia)) as (H1 & H2 & _).
  exact (conj H1 H2).
Defined.
End RunnerMoreWitnesses.

(** ** The scheduler over its whole life *)

Section SchedulerMore.
Import Events Deferred EventLoop Samples.
Context `{Hash} `{Utils}.

Lemma pop_keeps_order (s : Stack.Stack Job) :
  Stack.order (snd (Stack.pop s)) = Stack.order s.
Proof. unfold Stack.pop. repeat case_match; done. Qed.

Lemma fill_executing_single (fuel : nat) (w : World) :
  single_flight w -> single_flight (fill_executing fuel w).
Proof.
  revert w. induction fuel as [|fuel IH]; intros w (Hex & Hc & Ho); [done|].
  cbn [fill_executing]. rewrite Hc. change (if 1 =? 0 then 1 else 1) with 1.
  destruct (Z.of_nat (length (_executing (self w))) <? 1) eqn:Hlt; [|done].
  apply Z.ltb_lt in Hlt.
  pose proof (pop_keeps_order (_eventLoopQueueStack (self w))) as Hpop.
  destruct (Stack.pop _) as [[job|] stack]; simpl in Hpop.
  - apply IH. split_and!; simpl; [|done|congruence]. rewrite length_app. simpl. lia.
  - split_and!; simpl; [done|done|congruence].
Qed.

Lemma foldl_dispatch_self (jobs : list Job) (w : World) :
  self (foldl (fun w job => dispatch job w) w jobs) = self w.
Proof.
  revert w. induction jobs as [|job jobs IH]; intros w; simpl; [done|].
  rewrite IH. unfold dispatch. by case_match.
Qed.

Lemma execute_single_flight (w : World) : single_flight w -> single_flight (execute w).
Proof.
  intros Hw. unfold execute.
  destruct (_eventLoopQueueProcessor (self w)); [|done].
  destruct (0 <? Z.of_nat (length (_executing (self w)))); [done|].
  destruct (Stack.size (_eventLoopQueueStack (self w)) =? 0); [done|].
  cbv zeta. unfold single_flight. rewrite foldl_dispatch_self.
  by apply fill_executing_single.
Qed.

Lemma on_finally_single_flight (job : Job) (w : World) :
  single_flight w -> single_flight (on_finally job w).
Proof.
  intros (Hex & Hc & Ho). unfold on_finally. case_match; [|done].
  unfold single_flight. split_and!; [|done|done].
  cbn [set_executing on_self self _executing].
  pose proof (length_splice1
    (Array.findIndex (fun j => Nat.eqb (jobId j) (jobId job)) (_executing (self w)))
    (_executing (self w))). lia.
Qed.

Lemma settle_job_single_flight (job : Job) (outcome : completion value) (w : World) :
  single_flight w -> single_flight (settle_job job outcome w).
Proof.
  intros Hw.
  unfold settle_job, try_catch, throw, on_fulfilled, on_rejected, mbind, M_bind, on_ee, modify.
  destruct outcome as [result|reason].
  - destruct (emit _ _ _) as [[r|e] ee]; simpl.
    + by apply on_finally_single_flight.
    + destruct (normalize e) as [error|e']; simpl.
      * destruct (emit _ _ _) as [[r|e'] ee']; simpl; by apply on_finally_single_flight.
      * by apply on_finally_single_flight.
  - destruct (normalize reason) as [error|e']; simpl.
    + destruct (emit _ _ _) as [[r|e'] ee']; simpl; by apply on_finally_single_flight.
    + by apply on_finally_single_flight.
Qed.

Lemma processJob_self (job : Job) (w : World) : self (processJob job w) = self w.
Proof. unfold processJob, invoke. repeat case_match; done. Qed.

Lemma run_task_single_flight (t : Task) (w : World) :
  single_flight w -> single_flight (run_task t w).
Proof.
  intros Hw. destruct t as [|job|job|job|job outcome]; simpl.
  - by apply execute_single_flight.
  - unfold single_flight. by rewrite processJob_self.
  - done.
  - case_match; [done|]. by apply settle_job_single_flight.
  - repeat case_match; try done; by apply settle_job_single_flight.
Qed.

Lemma step_single_flight (w w' : World) :
  step w = Some w' -> single_flight w -> single_flight w'.
Proof.
  unfold step. destruct (microtasks (host w)) as [|t rest].
  - destruct (timers (host w)) as [|[due t] rest]; [done|].
    intros [= <-] Hw. by apply run_task_single_flight.
  - intros [= <-] Hw. by apply run_task_single_flight.
Qed.

Lemma on_ee_single_flight {A} (m : M EventEmitter A) (w : World) :
  single_flight w -> single_flight (snd (on_ee m w)).
Proof. intros Hw. unfold on_ee. by destruct (m _) as [r e]. Qed.

Lemma act_single_flight (a : Action) (w : World) :
  single_flight w -> single_flight (act a w).
Proof.
  intros Hw. destruct a; cbn [act]; try (by apply on_ee_single_flight); try done.
  - unfold start. destruct (_eventLoopQueueProcessor (self w)); [done|].
    unfold mbind, M_bind, on_ee, modify, get, put, mret, M_ret. simpl.
    destruct (emit _ _ _) as [[r|e] ee]; simpl; done.
  - destruct w as [[q p e o sp ex] h]. destruct Hw as (Hex & Hc & Ho).
    unfold dispose, removeAllEventListeners, mbind, M_bind, on_ee.
    unfold removeListeners, Events.dispose.
    destruct sp; simpl; destruct (_disposed e) eqn:Hd; simpl; rewrite ?Hd;
      split_and!; simpl; try done; lia.
  - destruct (step w) as [w'|] eqn:Hs; simpl; [|done]. by eapply step_single_flight.
Qed.

Lemma acts_single_flight (options : option EventLoopOptions) (l : list Action) :
  single_flight (acts l (new options)).
Proof.
  assert (single_flight (new options)) as Hnew by (split_and!; simpl; [lia|done|done]).
  revert Hnew. generalize (new options).
  induction l as [|a l IH]; intros w Hw; [done|].
  apply IH. by apply act_single_flight.
Qed.


(** X23.  [add] puts the job at the front of the queue: it returns 0 every
    time, and the size grows by one. *)
Theorem add_returns_zero (options : option EventLoopOptions) (l : list Action)
    (context : value) (type : option string) (options' : option JobOptions) :
  let w := acts l (new options) in
  fst (add context type options' w) = Normal 0 /\
  size (snd (add context type options' w)) = size w + 1.
Proof.
  intros w. destruct (acts_single_flight options l) as (_ & _ & Ho). fold w in Ho.
  unfold add, size, Stack.size, Stack.findIndex, Stack.push. simpl. rewrite Ho. simpl.
  unfold Array.findIndex. cbn [Array.findIndex_from jobId]. rewrite Nat.eqb_refl.
  split; [done|]. lia.
Qed.
Lemma on_ee_host {A} (m : M EventEmitter A) (w : World) :
  host (snd (on_ee m w)) = host w /\
  _executing (self (snd (on_ee m w))) = _executing (self w).
Proof. unfold on_ee. by destruct (m _) as [r e]. Qed.

Lemma dispatched_snoc (w : World) (o : Observation) :
  (forall job, o <> Invoked job) -> dispatched (observe o w) = dispatched w.
Proof.
  intros Ho. unfold dispatched, observe, on_host. simpl. rewrite omap_app. simpl.
  destruct o; try by rewrite app_nil_r. by destruct (Ho job).
Qed.

Lemma execute_stalled (w : World) : _executing (self w) <> [] -> execute w = w.
Proof.
  intros Hex. unfold execute. destruct (_eventLoopQueueProcessor (self w)); [|done].
  destruct (_executing (self w)); done.
Qed.

Lemma act_stalled (a : Action) (w : World) :
  a <> ActDispose -> stalled w ->
  stalled (act a w) /\ _executing (self (act a w)) = _executing (self w) /\
  dispatched (act a w) = dispatched w.
Proof.
  intros Ha (Hex & Hm & Ht).
  assert (forall {A} (m : M EventEmitter A),
    stalled (snd (on_ee m w)) /\
    _executing (self (snd (on_ee m w))) = _executing (self w) /\
    dispatched (snd (on_ee m w)) = dispatched w) as Hee.
  { intros A m. destruct (on_ee_host m w) as [Hh He]. unfold stalled, dispatched.
    rewrite Hh, He. done. }
  destruct a; cbn [act]; try apply Hee; try done.
  - (* add *)
    split_and!; try done. split_and!; try done. simpl.
    intros t [Hin | ->%list_elem_of_singleton]%elem_of_app; auto.
  - (* start *)
    unfold start. destruct (_eventLoopQueueProcessor (self w)); [done|].
    unfold mbind, M_bind, on_ee, modify, get, put, mret, M_ret. simpl.
    assert (forall t, t ∈ microtasks (host w) ++ [Execute] -> t = Execute) as Hm'
      by (intros t [Hin | ->%list_elem_of_singleton]%elem_of_app; auto).
    destruct (emit _ _ _) as [[r|e] ee]; simpl.
    + split_and!; try done. unfold dispatched. simpl. rewrite omap_app. simpl.
      by rewrite app_nil_r.
    + done.
  - (* a turn of the host *)
    unfold step. destruct (microtasks (host w)) as [|t rest] eqn:Hmt.
    + rewrite Ht. simpl. split_and!; try done. split_and!; try done. by rewrite Hmt.
    + assert (t = Execute) as -> by (apply Hm; left).
      cbn [default run_task]. unfold id.
      rewrite execute_stalled by done. split_and!; try done.
      split_and!; try done. simpl. intros t Hin. apply Hm. by right.
Qed.

(** X24.  While a job is in flight and nothing at the host can settle it,
    because its processing function returned a promise that never settles,
    no other job is ever handed to the processing function: whatever is
    added and whatever else is done, short of [dispose], the job stays in
    flight and the list of dispatched jobs stays as it is. *)
Theorem unsettled_job_blocks_queue (w : World) (l : list Action) :
  stalled w -> ActDispose ∉ l ->
  let w' := acts l w in
  stalled w' /\ _executing (self w') = _executing (self w) /\
  dispatched w' = dispatched w.
Proof.
  revert w. induction l as [|a l IH]; intros w Hw Hl; [done|].
  apply not_elem_of_cons in Hl as [Ha Hl].
  destruct (act_stalled a w) as (Hw1 & Hex1 & Hd1); [done|done|].
  destruct (IH (act a w) Hw1 Hl) as (Hw2 & Hex2 & Hd2).
  cbn zeta in *. change (acts (a :: l) w) with (acts l (act a w)).
  split_and!; [done|congruence|congruence].
Qed.




(** X26.  A disposed scheduler cannot be started again, yet the attempt
    leaves its mark: [start] throws the exception of the disposed emitter
    after it has registered the processing function and scheduled a drain
    tick, and returns no promise; any later [start] throws the
    already-started exception. *)
Theorem start_after_dispose (w : World) (fn fn' : ProcessFn) :
  let w1 := snd (dispose w) in
  let w2 := snd (start fn w1) in
  fst (start fn w1) = Throw disposed_error /\
  _eventLoopQueueProcessor (self w2) = Some fn /\
  microtasks (host w2) = microtasks (host w1) ++ [Execute] /\
  _stopPromise (self w2) = None /\
  start fn' w2 = (Throw already_started, w2).
Proof.
  intros w1 w2.
  destruct (dispose_clears w) as (Hp & _ & _ & Hsp & _).
  pose proof (dispose_disposes w) as Hd. fold w1 in Hp, Hsp, Hd.
  assert (start fn w1 =
          (Throw disposed_error, schedule Execute (set_processor (Some fn) w1))) as Hstart.
  { unfold start. rewrite Hp. unfold mbind, M_bind, on_ee, emit.
    cbn [self schedule set_processor set_microtasks on_self on_host _ee].
    rewrite Hd. destruct w1 as [[q p e o sp ex] h]. done. }
  subst w2. rewrite Hstart. cbn [fst snd]. split_and!; try done.
Qed.

(** X27.  What the attempt leads to: after [dispose] and the [start] that
    throws, a job that is added is handed to the processing function, but
    when its promise is fulfilled the ['completed'] event cannot be emitted,
    neither can the ['failed'] event, and the chain ends in an unhandled
    rejection with the exception of the disposed emitter. *)
Theorem job_after_dispose_is_unhandled (options : option EventLoopOptions)
    (fn : ProcessFn) (context : value) (type : option string)
    (after : Z) (result : value) :
  let job := {| data := context; jobId := 0; queuedAt := 0; messageType := type;
                options := {| timeout := None; delay := None |} |} in
  fn job = Fulfils after result ->
  let w := acts [ActDispose; ActStart fn; ActAdd context type None;
                 HostTurn; HostTurn; HostTurn; HostTurn] (new options) in
  observed (host w) = [Invoked job; Unhandled disposed_error] /\
  _executing (self w) = [] /\ quiescent w = true.
Proof.
  intros job Hfn w. subst w. unfold acts. cbn [foldl].
  set (w5 := act HostTurn (act HostTurn (act (ActAdd context type None)
               (act (ActStart fn) (act ActDispose (new options)))))).
  vm_compute in w5.
  assert (act HostTurn w5 = invoke fn job (set_microtasks [] w5)) as -> by reflexivity.
  unfold invoke. rewrite Hfn.
  vm_compute. destruct (H0 _); vm_compute; done.
Qed.
End SchedulerMore.

Section SchedulerMoreWitnesses.
Import Events Deferred EventLoop Samples.

Lemma unsettled_job_blocks_queue_witness :
  let w := run (H0 := literal_objects) 3 (plain_job hang (VNumber 1)) in
  let l := [ActAdd (VNumber 2) None None; HostTurn; HostTurn; ActStart echo; HostTurn] in
  stalled w /\
  dispatched (acts (H := text_signature) (H0 := literal_objects) l w) =
    [the_plain_job (VNumber 1)].
Proof.
  intros w l.
  assert (stalled w) as Hw.
  { split_and!; [vm_compute; discriminate| |reflexivity].
    intros t Hin. vm_compute in Hin. by apply elem_of_nil in Hin. }
  assert (ActDispose ∉ l) as Hl.
  { subst l. rewrite !not_elem_of_cons. split_and!; try discriminate. apply not_elem_of_nil. }
  split; [exact Hw|].
  destruct (unsettled_job_blocks_queue (H := text_signature) (H0 := literal_objects)
              w l Hw Hl) as (_ & _ & Hd).
  rewrite Hd. reflexivity.
Defined.


Lemma job_after_dispose_is_unhandled_witness :
  let w := acts (H := text_signature) (H0 := literal_objects)
             [ActDispose; ActStart echo; ActAdd (VNumber 7) None None;
              HostTurn; HostTurn; HostTurn; HostTurn] (new None) in
  observed (host w) = [Invoked (the_plain_job (VNumber 7)); Unhandled disposed_error].
Proof.
  intros w.
  exact (proj1 (job_after_dispose_is_unhandled (H := text_signature)
    (H0 := literal_objects) None echo (VNumber 7) None 5 (VNumber 7) eq_refl)).
Defined.
End SchedulerMoreWitnesses.

(** ** The iteration helpers *)

Section IterableFacts.
Import Iterable.
Context {T : Type}.

Lemma length_indexed (i : Z) (thing : list T) : length (indexed i thing) = length thing.
Proof. revert i. induction thing as [|x l IH]; intros i; simpl; [done|]. by rewrite IH. Qed.

Lemma reached_next (limit : option Z) (i : Z) (n : nat) :
  0 <= i -> (forall m, limit = Some m -> 0 < m -> i < m) ->
  if reached limit (i + 1) then remaining limit i (S n) = 1%nat
  else remaining limit i (S n) = S (remaining limit (i + 1) n) /\
       (forall m, limit = Some m -> 0 < m -> i + 1 < m).
Proof.
  intros Hi Hlt. unfold reached, remaining. destruct limit as [m|]; [|done].
  destruct (0 <? m) eqn:Hpos.
  - apply Z.ltb_lt in Hpos. specialize (Hlt m eq_refl Hpos).
    assert ((m =? 0) = false) as -> by (apply Z.eqb_neq; lia). simpl.
    destruct (m <=? i + 1) eqn:Hle.
    + apply Z.leb_le in Hle. lia.
    + apply Z.leb_gt in Hle. split; [lia|]. intros m' [= <-] _. lia.
  - rewrite andb_false_r. simpl. split; [done|]. intros m' [= <-] Hm.
    apply Z.ltb_ge in Hpos. lia.
Qed.

Lemma forEachArraySafe_loop_watched (behaviour : T -> Z -> option value)
    (limit : option Z) (thing : list T) :
  forall (i : Z) (log : list (T * Z)),
  0 <= i -> (forall m, limit = Some m -> 0 < m -> i < m) ->
  forEachArraySafe_loop limit (watched behaviour) thing i i log =
    (Normal tt, log ++ take (remaining limit i (length thing)) (indexed i thing)).
Proof.
  induction thing as [|x l IH]; intros i log Hi Hlt.
  - simpl. by rewrite take_nil, app_nil_r.
  - cbn [forEachArraySafe_loop indexed length].
    unfold mbind, M_bind, try_catch, watched at 1.
    pose proof (reached_next limit i (length l) Hi Hlt) as Hnext.
    destruct (behaviour x i); unfold mret, M_ret; cbv beta iota zeta.
    all: destruct (reached limit (i + 1)); cbv beta iota zeta.
    all: try (rewrite Hnext; simpl; by rewrite take_0).
    all: destruct Hnext as [-> Hlt']; rewrite IH by (done || lia); simpl;
      by rewrite <- app_assoc.
Qed.

Lemma forEachArray_loop_watched (behaviour : T -> Z -> option value)
    (limit : option Z) (thing : list T) :
  forall (i : Z) (log : list (T * Z)),
  0 <= i -> (forall m, limit = Some m -> 0 < m -> i < m) ->
  forEachArray_loop limit (watched behaviour) thing i i log =
    let '(c, made) := until_throw behaviour
                        (take (remaining limit i (length thing)) (indexed i thing)) in
    (c, log ++ made).
Proof.
  induction thing as [|x l IH]; intros i log Hi Hlt.
  - simpl. rewrite take_nil. simpl. by rewrite app_nil_r.
  - cbn [forEachArray_loop indexed length].
    unfold mbind, M_bind, watched at 1.
    pose proof (reached_next limit i (length l) Hi Hlt) as Hnext.
    destruct (behaviour x i) as [e|] eqn:Hb; unfold mret, M_ret; cbv beta iota zeta.
    + assert (exists k, remaining limit i (S (length l)) = S k) as [k ->].
      { destruct (reached limit (i + 1)); [eauto|]. destruct Hnext as [-> _]. eauto. }
      simpl. by rewrite Hb.
    + destruct (reached limit (i + 1)); cbv beta iota zeta.
      * rewrite Hnext. simpl. rewrite ?take_0. simpl. by rewrite Hb.
      * destruct Hnext as [-> Hlt']. rewrite IH by (done || lia). simpl. rewrite Hb.
        destruct (until_throw _ _) as [c made]. by rewrite <- app_assoc.
Qed.

Lemma reached_start (limit : option Z) : reached limit 0 = false.
Proof.
  unfold reached. destruct limit as [m|]; [|done].
  destruct (m =? 0) eqn:E1; [done|]. destruct (0 <? m) eqn:E2; [|done].
  apply Z.ltb_lt in E2. simpl. apply Z.leb_gt. lia.
Qed.

(** X28.  [forEachArraySafe] never throws because of the callback: it
    calls it on the first [limit] items of the array, in order and with
    their indexes, whether the calls return or throw, and on all the items
    when [limit] is 0, negative or not given. *)
Theorem forEachArraySafe_visits (behaviour : T -> Z -> option value) (thing : list T)
    (limit : Z) (log : list (T * Z)) :
  forEachArraySafe thing (ALimit limit) (Some (watched behaviour)) log =
    (Normal tt, log ++ take (within (Some limit) (length thing)) (indexed 0 thing)) /\
  forEachArraySafe thing (ACallback (watched behaviour)) None log =
    (Normal tt, log ++ indexed 0 thing).
Proof.
  unfold forEachArraySafe. cbn [overload]. rewrite !reached_start. split.
  - rewrite forEachArraySafe_loop_watched by (done || lia).
    unfold remaining, within. by rewrite Z.sub_0_r.
  - rewrite forEachArraySafe_loop_watched by done. unfold remaining.
    by rewrite <- (length_indexed 0 thing), firstn_all.
Qed.

(** X29.  [forEachArray] calls the callback on the same items, up to and
    including the first call that throws; that exception ends the loop and
    is the one the caller gets. *)
Theorem forEachArray_stops_at_first_throw (behaviour : T -> Z -> option value)
    (thing : list T) (limit : Z) (log : list (T * Z)) :
  forEachArray thing (ALimit limit) (Some (watched behaviour)) log =
    (let '(c, made) := until_throw behaviour
                         (take (within (Some limit) (length thing)) (indexed 0 thing)) in
     (c, log ++ made)) /\
  forEachArray thing (ACallback (watched behaviour)) None log =
    (let '(c, made) := until_throw behaviour (indexed 0 thing) in (c, log ++ made)).
Proof.
  unfold forEachArray. cbn [overload]. rewrite !reached_start. split.
  - rewrite forEachArray_loop_watched by (done || lia).
    unfold remaining, within. by rewrite Z.sub_0_r.
  - rewrite forEachArray_loop_watched by done. unfold remaining.
    by rewrite <- (length_indexed 0 thing), firstn_all.
Qed.

(** X30.  [forEachObject] and [forEachObjectSafe] go through the entries
    of the object as [forEachArray] and [forEachArraySafe] go through an
    array of those entries, with the same limit. *)
Theorem forEachObject_as_array {S : Type} (entries : list (string * T))
    (cb : EntryCallback (S := S)) (limit : Z) (s : S) :
  let cb' : Callback := fun entry index => cb (fst entry) (snd entry) index in
  forEachObject entries (ALimit limit) (Some cb) s =
    forEachArray entries (ALimit limit) (Some cb') s /\
  forEachObject entries (ACallback cb) None s =
    forEachArray entries (ACallback cb') None s /\
  forEachObjectSafe entries (ALimit limit) (Some cb) s =
    forEachArraySafe entries (ALimit limit) (Some cb') s /\
  forEachObjectSafe entries (ACallback cb) None s =
    forEachArraySafe entries (ACallback cb') None s.
Proof.
  intros cb'.
  assert (forall lim i rc s',
    forEachObject_loop lim cb entries i rc s' = forEachArray_loop lim cb' entries i rc s')
    as Hloop.
  { induction entries as [|[k v] l IH]; intros lim i rc s'; [done|].
    cbn [forEachObject_loop forEachArray_loop]. unfold mbind, M_bind. subst cb'.
    cbn [fst snd]. destruct (cb k v i s') as [[[]|e] s'']; [|done].
    cbv zeta. destruct (reached lim (rc + 1)); [done|]. apply IH. }
  assert (forall lim i rc s',
    forEachObjectSafe_loop lim cb entries i rc s' =
    forEachArraySafe_loop lim cb' entries i rc s') as Hsafe.
  { clear Hloop. induction entries as [|[k v] l IH]; intros lim i rc s'; [done|].
    cbn [forEachObjectSafe_loop forEachArraySafe_loop]. unfold mbind, M_bind, try_catch.
    subst cb'. cbn [fst snd]. destruct (cb k v i s') as [[[]|e] s'']; cbn.
    all: destruct (reached lim (rc + 1)); [done|]; apply IH. }
  unfold forEachObject, forEachArray, forEachObjectSafe, forEachArraySafe.
  cbn [overload]. rewrite reached_start. cbn [reached].
  by rewrite !Hloop, !Hsafe.
Qed.
End IterableFacts.
